(** * simple-create-lwc: the name normaliser and the [createLWC] command

    A shallow embedding of [src/extension.ts].  JavaScript strings are
    sequences of UTF-16 code units; the two regular-expression replacements
    of [normalizeComponentName] are written out as the left-to-right scans
    the engine performs; the command handler runs in a small state and
    exception monad over an in-memory file system and a log of host calls. *)

From Stdlib Require Import NArith Ascii String List Bool Lia.
From stdpp Require Import base option list gmap.

Local Open Scope N_scope.

(** ** Strings *)

(** A JavaScript string: its UTF-16 code units, in order. *)
Abbreviation jsstring := (list N).

(** A string literal of the source (all of them are ASCII). *)
Definition lit (s : string) : jsstring :=
  map N_of_ascii (list_ascii_of_string s).

Definition hyphen : N := 45.

(** The escape [\n] of the source's string literals. *)
Definition newline : N := 10.

(** The character classes of the source's regular expressions.  Without the
    [i] and [u] flags, [[a-z]], [[A-Z]] and [[0-9]] are ranges of code units. *)
Definition is_lower (c : N) : bool := (97 <=? c) && (c <=? 122).
Definition is_upper (c : N) : bool := (65 <=? c) && (c <=? 90).
Definition is_digit (c : N) : bool := (48 <=? c) && (c <=? 57).

(** What a thrown value is to the handler's [catch]: an [Error] instance with
    its [message], or any other value with its [String(err)]. *)
Inductive JsValue :=
  | ErrorObject (message : jsstring)
  | OtherValue (asString : jsstring).

(** The outcome of evaluating JavaScript code that may throw. *)
Inductive Completion (A : Type) :=
  | Normal (a : A)
  | Throw (e : JsValue).
Arguments Normal {A} a.
Arguments Throw {A} e.

(** What the source takes from the JavaScript engine and does not define:
    the Unicode case mappings of the code units outside ASCII, and the message
    of the [TypeError] raised by reading a property of [undefined]. *)
Class JsEngine := {
  unicode_upper : N -> jsstring;
  unicode_lower : N -> jsstring;
  undefined_read_message : jsstring
}.

Section Strings.
Context `{JsEngine}.

(** [String.prototype.toUpperCase], one code unit at a time: the ASCII
    letters are shifted, the other ASCII code units are kept, the rest is
    the engine's.  (The source calls it on one-unit strings only.) *)
Definition upper_unit (c : N) : jsstring :=
  if is_lower c then [c - 32]
  else if c <? 128 then [c]
  else unicode_upper c.

Definition lower_unit (c : N) : jsstring :=
  if is_upper c then [c + 32]
  else if c <? 128 then [c]
  else unicode_lower c.

Definition toUpperCase (s : jsstring) : jsstring := flat_map upper_unit s.
Definition toLowerCase (s : jsstring) : jsstring := flat_map lower_unit s.

(** [s.slice(1)] *)
Definition slice1 (s : jsstring) : jsstring := drop 1 s.

(** ** normalizeComponentName *)

Record NormalizedName := {
  camelCase : jsstring;
  pascalCase : jsstring
}.

(** [name.replace(/-([a-z])/g, (_, char) => char.toUpperCase())]: the scan
    goes left to right; at a hyphen followed by [[a-z]] the two units are
    replaced by the callback's result and the scan resumes after them;
    any other unit is copied. *)
Fixpoint replace_kebab (name : jsstring) : jsstring :=
  match name with
  | [] => []
  | c :: rest =>
      match rest with
      | char :: rest' =>
          if (c =? hyphen) && is_lower char
          then toUpperCase [char] ++ replace_kebab rest'
          else c :: replace_kebab rest
      | [] => [c]
      end
  end.

(** [s.replace(/^([A-Z])/, (_, char) => char.toLowerCase())]: one match at
    most, at the start of the string. *)
Definition replace_leading_upper (s : jsstring) : jsstring :=
  match s with
  | char :: rest => if is_upper char then toLowerCase [char] ++ rest else s
  | [] => []
  end.

Definition normalizeComponentName (name : jsstring) : Completion NormalizedName :=
  let camelCase := replace_leading_upper (replace_kebab name) in
  match camelCase with
  | [] =>
      (* camelCase[0] is undefined: reading .toUpperCase throws *)
      Throw (ErrorObject undefined_read_message)
  | c0 :: _ =>
      let pascalCase := toUpperCase [c0] ++ slice1 camelCase in
      Normal {| camelCase := camelCase; pascalCase := pascalCase |}
  end.

(** [/^[a-zA-Z][a-zA-Z0-9-]*$/.test(value)] *)
Definition is_letter (c : N) : bool := is_lower c || is_upper c.
Definition is_name_unit (c : N) : bool :=
  is_letter c || is_digit c || (c =? hyphen).

Definition validNameRegex_test (value : jsstring) : bool :=
  match value with
  | c :: rest => is_letter c && forallb is_name_unit rest
  | [] => false
  end.

End Strings.

(** An engine whose case mappings leave the code units outside ASCII alone,
    for running the model on ASCII inputs. *)
Definition ascii_engine : JsEngine := {|
  unicode_upper c := [c];
  unicode_lower c := [c];
  undefined_read_message :=
    lit "Cannot read properties of undefined (reading 'toUpperCase')"
|}.

(** ** The host: file system, editor and user *)

(** The in-memory file system the handler writes to: the directories and the
    regular files, by path. *)
Record FileSystem := {
  dirs : gset jsstring;
  files : gmap jsstring jsstring
}.

(** The two mutating calls the source makes on [fs]. *)
Inductive FsCall :=
  | Mkdir (path : jsstring)
  | WriteFile (path : jsstring) (data : jsstring).

(** An item of the quick pick: [{ label, picked }]. *)
Record QuickPickItem := {
  label : jsstring;
  picked : bool
}.

(** The calls of the handler on the host that have an effect outside it, as
    they are logged in the order they are made. *)
Inductive HostCall :=
  | ShowInputBox
  | ShowQuickPick (items : list QuickPickItem)
  | FsMkdir (path : jsstring)
  | FsWriteFile (path : jsstring) (data : jsstring)
  | ShowErrorMessage (msg : jsstring)
  | ShowInformationMessage (msg : jsstring).

Definition is_notification (c : HostCall) : bool :=
  match c with
  | ShowErrorMessage _ | ShowInformationMessage _ => true
  | _ => false
  end.

Definition is_fs_write (c : HostCall) : bool :=
  match c with
  | FsMkdir _ | FsWriteFile _ _ => true
  | _ => false
  end.

(** What the source takes from Node and does not define: [path.join],
    [path.dirname], and the failures of the file system that the in-memory
    model does not derive (permissions, a missing parent, a full disk):
    [fs_fault f c] is the error that call [c] raises on file system [f]. *)
Class NodeHost := {
  path_join : jsstring -> jsstring -> jsstring;
  path_dirname : jsstring -> jsstring;
  fs_fault : FileSystem -> FsCall -> option JsValue
}.

(** One invocation of the command: the argument and the editor state that
    step 1 reads, and what the two prompts resolve to.  A prompt resolves to
    [None] ([undefined]) when the user dismisses it; a rejected promise makes
    the [await] throw. *)
Record Invocation := {
  uri : option jsstring;
  activeTextEditor : option jsstring;
  workspaceFolder0 : option jsstring;
  inputBox_answer : Completion (option jsstring);
  quickPick_answer : Completion (option (list QuickPickItem))
}.

Record World := {
  fs : FileSystem;
  calls : list HostCall
}.

(** ** The state and exception monad of the handler *)

Definition M (A : Type) : Type := World -> Completion A * World.

Definition ret {A} (a : A) : M A := fun w => (Normal a, w).

Definition bind {A B} (m : M A) (k : A -> M B) : M B :=
  fun w =>
    match m w with
    | (Normal a, w') => k a w'
    | (Throw e, w') => (Throw e, w')
    end.

Definition try_catch {A} (body : M A) (handler : JsValue -> M A) : M A :=
  fun w =>
    match body w with
    | (Normal a, w') => (Normal a, w')
    | (Throw e, w') => handler e w'
    end.

Definition lift {A} (c : Completion A) : M A := fun w => (c, w).

Declare Scope js_scope.
Delimit Scope js_scope with js.
Notation "x <- m ;; k" := (bind m (fun x => k))
  (at level 100, m at next level, right associativity) : js_scope.
Notation "m ;;; k" := (bind m (fun _ => k))
  (at level 100, right associativity) : js_scope.

Definition log_call (c : HostCall) (w : World) : World :=
  {| fs := fs w; calls := calls w ++ [c] |}.

Definition call (c : HostCall) : M unit := fun w => (Normal tt, log_call c w).

Fixpoint forEach {A} (l : list A) (f : A -> M unit) : M unit :=
  match l with
  | [] => ret tt
  | x :: l' => bind (f x) (fun _ => forEach l' f)
  end.

(** ** Node's [fs] on the in-memory file system *)

Definition fs_exists (f : FileSystem) (p : jsstring) : bool :=
  bool_decide (p ∈ dirs f) || bool_decide (is_Some (files f !! p)).

Definition fs_mkdir (f : FileSystem) (p : jsstring) : FileSystem :=
  {| dirs := {[ p ]} ∪ dirs f; files := files f |}.

Definition fs_write (f : FileSystem) (p data : jsstring) : FileSystem :=
  {| dirs := dirs f; files := <[ p := data ]> (files f) |}.

Definition eexist_error (p : jsstring) : JsValue :=
  ErrorObject (lit "EEXIST: file already exists, mkdir '" ++ p ++ lit "'").

Definition eisdir_error (p : jsstring) : JsValue :=
  ErrorObject (lit "EISDIR: illegal operation on a directory, open '" ++ p ++ lit "'").

Section Handler.
Context `{JsEngine} `{NodeHost}.

(** [fs.existsSync(p)]: never throws. *)
Definition existsSync (p : jsstring) : M bool :=
  fun w => (Normal (fs_exists (fs w) p), w).

(** [fs.mkdirSync(p)]: throws when the path exists already. *)
Definition mkdirSync (p : jsstring) : M unit :=
  fun w =>
    let w' := log_call (FsMkdir p) w in
    match fs_fault (fs w) (Mkdir p) with
    | Some e => (Throw e, w')
    | None =>
        if fs_exists (fs w) p then (Throw (eexist_error p), w')
        else (Normal tt, {| fs := fs_mkdir (fs w) p; calls := calls w' |})
    end.

(** [fs.writeFileSync(p, data)] with the default flag ["w"]: creates the
    file or replaces its content; throws when the path is a directory. *)
Definition writeFileSync (p data : jsstring) : M unit :=
  fun w =>
    let w' := log_call (FsWriteFile p data) w in
    match fs_fault (fs w) (WriteFile p data) with
    | Some e => (Throw e, w')
    | None =>
        if bool_decide (p ∈ dirs (fs w)) then (Throw (eisdir_error p), w')
        else (Normal tt, {| fs := fs_write (fs w) p data; calls := calls w' |})
    end.

(** ** The command handler *)

(** JavaScript truthiness of a string. *)
Definition truthy (s : jsstring) : bool :=
  match s with [] => false | _ => true end.

Definition truthy_opt (o : option jsstring) : bool :=
  match o with Some s => truthy s | None => false end.

(** Step 1: the target directory, or [None] on the branch that reports
    that there is none. *)
Definition resolve_targetDir (inv : Invocation) : option jsstring :=
  if truthy_opt (uri inv) then uri inv
  else match activeTextEditor inv with
       | Some document_fsPath => Some (path_dirname document_fsPath)
       | None =>
           if truthy_opt (workspaceFolder0 inv) then workspaceFolder0 inv
           else None
       end.

(** The [validateInput] callback of the input box. *)
Definition validateInput (value : jsstring) : option jsstring :=
  if validNameRegex_test value then None
  else Some (lit "Component name must start with a letter and contain only letters, numbers, or hyphens.").

(** [["JS", "HTML", "CSS"].map((label) => ({ label, picked: label !== "CSS" }))] *)
Definition fileOption_items : list QuickPickItem :=
  map (fun l => {| label := l; picked := negb (bool_decide (l = lit "CSS")) |})
      [lit "JS"; lit "HTML"; lit "CSS"].

Definition showInputBox (inv : Invocation) : M (option jsstring) :=
  bind (call ShowInputBox) (fun _ => lift (inputBox_answer inv)).

Definition showQuickPick (inv : Invocation) (items : list QuickPickItem)
  : M (option (list QuickPickItem)) :=
  bind (call (ShowQuickPick items)) (fun _ => lift (quickPick_answer inv)).

Definition js_template (pascalCaseName : jsstring) : jsstring :=
  lit "import { LightningElement } from 'lwc';" ++ [newline; newline]
    ++ lit "export default class " ++ pascalCaseName
    ++ lit " extends LightningElement {}".

Definition html_template : jsstring :=
  lit "<template>" ++ [newline; newline] ++ lit "</template>".

(** The callback of [fileOptions.forEach]. *)
Definition write_file (componentDir camelCaseName pascalCaseName : jsstring)
    (file : QuickPickItem) : M unit :=
  let filePath :=
    path_join componentDir
      (camelCaseName ++ lit "." ++ toLowerCase (label file)) in
  if bool_decide (label file = lit "JS") then
    writeFileSync filePath (js_template pascalCaseName)
  else if bool_decide (label file = lit "HTML") then
    writeFileSync filePath html_template
  else if bool_decide (label file = lit "CSS") then
    writeFileSync filePath []
  else ret tt.

(** Steps 5 and 6 and the closing notification. *)
Definition create_files (targetDir camelCaseName pascalCaseName : jsstring)
    (fileOptions : list QuickPickItem) : M unit :=
  (let componentDir := path_join targetDir camelCaseName in
   dir_exists <- existsSync componentDir ;;
   (if dir_exists then ret tt else mkdirSync componentDir) ;;;
   forEach fileOptions (write_file componentDir camelCaseName pascalCaseName) ;;;
   call (ShowInformationMessage
           (lit "LWC component '" ++ camelCaseName ++ lit "' created in '"
              ++ componentDir ++ lit "'.")))%js.

(** The body of the [try] block. *)
Definition createLWC_body (inv : Invocation) : M unit :=
  (match resolve_targetDir inv with
   | None => call (ShowErrorMessage (lit "No target directory found."))
   | Some targetDir =>
       rawName <- showInputBox inv ;;
       match rawName with
       | None => ret tt (* User canceled the input *)
       | Some rawName =>
           if negb (truthy rawName) then ret tt
           else
             normalizedName <- lift (normalizeComponentName rawName) ;;
             let camelCaseName := camelCase normalizedName in
             let pascalCaseName := pascalCase normalizedName in
             fileOptions <- showQuickPick inv fileOption_items ;;
             match fileOptions with
             | None | Some [] =>
                 ret tt (* User canceled or deselected everything *)
             | Some fileOptions =>
                 create_files targetDir camelCaseName pascalCaseName fileOptions
             end
       end
   end)%js.

(** The [catch] block. *)
Definition createLWC_catch (err : JsValue) : M unit :=
  let errorMessage :=
    match err with
    | ErrorObject message => message
    | OtherValue asString => asString
    end in
  call (ShowErrorMessage (lit "Error creating LWC: " ++ errorMessage)).

(** The handler registered for [simple-create-lwc.createLWC]. *)
Definition createLWC (inv : Invocation) : M unit :=
  try_catch (createLWC_body inv) createLWC_catch.

End Handler.

(** A POSIX-like host for running the model: paths are joined with a slash,
    [dirname] drops the last segment, and the file system never faults. *)
Fixpoint dirname_units (p : jsstring) : jsstring :=
  match p with
  | [] => []
  | c :: rest =>
      if existsb (N.eqb 47) rest then c :: dirname_units rest else []
  end.

Definition posix_host : NodeHost := {|
  path_join a b := a ++ lit "/" ++ b;
  path_dirname := dirname_units;
  fs_fault _ _ := None
|}.

(** ** Vocabulary of the specification *)

(** A word of a kebab-case name: lowercase letters, at least one. *)
Definition lowercase_word (w : jsstring) : bool :=
  negb (bool_decide (w = [])) && forallb is_lower w.

(** [word1-word2-...-wordN] *)
Definition kebab (words : list jsstring) : jsstring :=
  match words with
  | [] => []
  | w :: ws => w ++ flat_map (fun x => hyphen :: x) ws
  end.

(** A word with its first letter capitalized. *)
Definition capitalize (w : jsstring) : jsstring :=
  match w with
  | c :: rest => (if is_lower c then c - 32 else c) :: rest
  | [] => []
  end.

(** The first word followed by each subsequent word capitalized. *)
Definition camel_of_words (words : list jsstring) : jsstring :=
  match words with
  | [] => []
  | w :: ws => w ++ concat (map capitalize ws)
  end.

(** Does the string hold a hyphen immediately followed by [[a-z]]? *)
Fixpoint has_kebab_pair (s : jsstring) : bool :=
  match s with
  | [] => false
  | c :: rest =>
      match rest with
      | d :: _ => ((c =? hyphen) && is_lower d) || has_kebab_pair rest
      | [] => false
      end
  end.

(** The world at the start of an invocation: the file system as it is, and
    an empty log. *)
Definition start (f : FileSystem) : World := {| fs := f; calls := [] |}.

(** The text of a caught value in the notification:
    [err instanceof Error ? err.message : String(err)]. *)
Definition error_text (err : JsValue) : jsstring :=
  match err with
  | ErrorObject message => message
  | OtherValue asString => asString
  end.

(** The effect of a logged call on the file system when it succeeds. *)
Definition apply_call (f : FileSystem) (c : HostCall) : FileSystem :=
  match c with
  | FsMkdir p => fs_mkdir f p
  | FsWriteFile p data => fs_write f p data
  | _ => f
  end.

Definition replay (f : FileSystem) (cs : list HostCall) : FileSystem :=
  fold_left apply_call cs f.

(** The [writeFileSync] calls of a log, in order. *)
Definition written_files (cs : list HostCall) : list (jsstring * jsstring) :=
  flat_map (fun c => match c with
                     | FsWriteFile p data => [(p, data)]
                     | _ => []
                     end) cs.

Definition mkdir_calls (cs : list HostCall) : list jsstring :=
  flat_map (fun c => match c with FsMkdir p => [p] | _ => [] end) cs.

Definition notifications (cs : list HostCall) : list HostCall :=
  filter (fun c => is_notification c = true) cs.

Section Targets.
Context `{JsEngine} `{NodeHost}.

(** [<componentDir>/<camelCase>.<extension>] for a selected item. *)
Definition target_path (componentDir camelCaseName : jsstring)
    (file : QuickPickItem) : jsstring :=
  path_join componentDir (camelCaseName ++ lit "." ++ toLowerCase (label file)).

(** The template of a selected item, for the three labels on offer. *)
Definition template_for (pascalCaseName : jsstring) (file : QuickPickItem)
  : option jsstring :=
  if bool_decide (label file = lit "JS") then Some (js_template pascalCaseName)
  else if bool_decide (label file = lit "HTML") then Some html_template
  else if bool_decide (label file = lit "CSS") then Some []
  else None.

(** The writes that the selection asks for, in order. *)
Definition planned_writes (componentDir camelCaseName pascalCaseName : jsstring)
    (fileOptions : list QuickPickItem) : list (jsstring * jsstring) :=
  flat_map (fun file =>
              match template_for pascalCaseName file with
              | Some data => [(target_path componentDir camelCaseName file, data)]
              | None => []
              end) fileOptions.

Definition success_message (camelCaseName componentDir : jsstring) : jsstring :=
  lit "LWC component '" ++ camelCaseName ++ lit "' created in '"
    ++ componentDir ++ lit "'.".

End Targets.

Definition write_all (writes : list (jsstring * jsstring))
    (m : gmap jsstring jsstring) : gmap jsstring jsstring :=
  fold_left (fun m pd => <[ pd.1 := pd.2 ]> m) writes m.

(** The invocation with the quick pick dismissed instead. *)
Definition dismiss_quickPick (inv : Invocation) : Invocation := {|
  uri := uri inv;
  activeTextEditor := activeTextEditor inv;
  workspaceFolder0 := workspaceFolder0 inv;
  inputBox_answer := inputBox_answer inv;
  quickPick_answer := Normal None
|}.

(** ** Fixtures *)

Definition item (l : string) (p : bool) : QuickPickItem :=
  {| label := lit l; picked := p |}.

Definition invocation (name : option jsstring) (selection : option (list QuickPickItem))
  : Invocation := {|
  uri := Some (lit "/ws/lwc");
  activeTextEditor := None;
  workspaceFolder0 := None;
  inputBox_answer := Normal name;
  quickPick_answer := Normal selection
|}.

(** A host whose file system refuses every write of a file. *)
Definition readonly_host : NodeHost := {|
  path_join a b := a ++ lit "/" ++ b;
  path_dirname := dirname_units;
  fs_fault _ c :=
    match c with
    | WriteFile p _ =>
        Some (ErrorObject (lit "EACCES: permission denied, open '" ++ p ++ lit "'"))
    | Mkdir _ => None
    end
|}.

(** A file system with the target directory only. *)
Definition workspace_fs : FileSystem := {|
  dirs := {[ lit "/ws/lwc" ]};
  files := ∅
|}.

(** ** Invariants of a run *)

(** From file system [f]: before a failure the file
    system is the replay of the log and nothing was notified; at a failure
    the failing call is the last of the log and the file system is the replay
    of the calls before it. *)
Definition good (f : FileSystem) (w : World) : Prop :=
  fs w = replay f (calls w) /\ notifications (calls w) = [].

Definition failed (f : FileSystem) (w : World) : Prop :=
  exists done failing,
    calls w = done ++ [failing] /\ is_notification failing = false /\
    notifications done = [] /\ fs w = replay f done.

Definition throws_tracked {A} (f : FileSystem) (m : M A) : Prop :=
  forall w, good f w ->
    match m w with
    | (Normal _, w') => good f w'
    | (Throw _, w') => failed f w'
    end.

Definition throws_failed {A} (f : FileSystem) (m : M A) : Prop :=
  forall w, good f w -> forall e w1, m w = (Throw e, w1) -> failed f w1.

(** ** More fixtures *)

(** A file system where the component exists already. *)
Definition existing_component : FileSystem := {|
  dirs := {[ lit "/ws/lwc"; lit "/ws/lwc/myComponent" ]};
  files := {[ lit "/ws/lwc/myComponent/myComponent.html" := lit "<template>old</template>" ]}
|}.

(** ** What a run may change *)

(** The file system of [w] differs from [f] only where the log of [w] says:
    regular files at the paths of its [writeFileSync] calls, directories at
    the paths of its [mkdirSync] calls; nothing of [f] is removed. *)
Definition unchanged_outside_log (f : FileSystem) (w : World) : Prop :=
  (forall p, ~ In p (map fst (written_files (calls w))) ->
             files (fs w) !! p = files f !! p)
  /\ (forall p, p ∈ dirs (fs w) -> p ∈ dirs f \/ In p (mkdir_calls (calls w)))
  /\ dirs f ⊆ dirs (fs w)
  /\ (forall p, is_Some (files f !! p) -> is_Some (files (fs w) !! p)).

Definition keeps {A} (P : World -> Prop) (m : M A) : Prop :=
  forall w, P w -> P (m w).2.

(** An invocation with no argument, no editor and no workspace. *)
Definition bare_invocation : Invocation := {|
  uri := None;
  activeTextEditor := None;
  workspaceFolder0 := None;
  inputBox_answer := Normal None;
  quickPick_answer := Normal None
|}.

(** A host whose file system refuses to create directories. *)
Definition no_mkdir_host : NodeHost := {|
  path_join a b := a ++ lit "/" ++ b;
  path_dirname := dirname_units;
  fs_fault _ c :=
    match c with
    | Mkdir p =>
        Some (ErrorObject (lit "EACCES: permission denied, mkdir '" ++ p ++ lit "'"))
    | WriteFile _ _ => None
    end
|}.

Example scenario1 :
  @normalizeComponentName ascii_engine (lit "my-component")
  = Normal {| camelCase := lit "myComponent"; pascalCase := lit "MyComponent" |}.
Proof. reflexivity. Qed.

(** ** The name normaliser *)

Section StringFacts.
Context `{JsEngine}.

Lemma toUpperCase_unit c : toUpperCase [c] = upper_unit c.
Proof. unfold toUpperCase. simpl. apply app_nil_r. Qed.

Lemma toLowerCase_unit c : toLowerCase [c] = lower_unit c.
Proof. unfold toLowerCase. simpl. apply app_nil_r. Qed.

Lemma upper_unit_lower c : is_lower c = true -> upper_unit c = [c - 32].
Proof. unfold upper_unit. now intros ->. Qed.

Lemma lower_unit_upper c : is_upper c = true -> lower_unit c = [c + 32].
Proof. unfold lower_unit. now intros ->. Qed.

Lemma is_lower_bounds c : is_lower c = true <-> 97 <= c <= 122.
Proof. unfold is_lower. rewrite andb_true_iff, !N.leb_le. tauto. Qed.

Lemma is_upper_bounds c : is_upper c = true <-> 65 <= c <= 90.
Proof. unfold is_upper. rewrite andb_true_iff, !N.leb_le. tauto. Qed.

Lemma is_lower_not_hyphen c : is_lower c = true -> (c =? hyphen) = false.
Proof.
  rewrite is_lower_bounds. intros Hc. apply N.eqb_neq. unfold hyphen. lia.
Qed.

Lemma is_upper_not_hyphen c : is_upper c = true -> (c =? hyphen) = false.
Proof.
  rewrite is_upper_bounds. intros Hc. apply N.eqb_neq. unfold hyphen. lia.
Qed.

Lemma is_lower_not_upper c : is_lower c = true -> is_upper c = false.
Proof.
  rewrite is_lower_bounds. intros Hc.
  destruct (is_upper c) eqn:E; [|done]. apply is_upper_bounds in E. lia.
Qed.

Lemma upper_of_lower_is_upper c : is_lower c = true -> is_upper (c - 32) = true.
Proof. rewrite is_lower_bounds, is_upper_bounds. lia. Qed.

Lemma lower_of_upper_is_lower c : is_upper c = true -> is_lower (c + 32) = true.
Proof. rewrite is_lower_bounds, is_upper_bounds. lia. Qed.

(** The three cases of the scan. *)
Lemma replace_kebab_copy c rest :
  (c =? hyphen) = false -> replace_kebab (c :: rest) = c :: replace_kebab rest.
Proof. intros Hc. destruct rest as [|d rest]; simpl; [done|]. now rewrite Hc. Qed.

Lemma replace_kebab_collapse char rest :
  is_lower char = true ->
  replace_kebab (hyphen :: char :: rest) = (char - 32) :: replace_kebab rest.
Proof.
  intros Hc. change (replace_kebab (hyphen :: char :: rest))
    with (if (hyphen =? hyphen) && is_lower char
          then toUpperCase [char] ++ replace_kebab rest
          else hyphen :: replace_kebab (char :: rest)).
  rewrite Hc, toUpperCase_unit, upper_unit_lower by done. reflexivity.
Qed.

Lemma replace_kebab_keep char rest :
  is_lower char = false ->
  replace_kebab (hyphen :: char :: rest) = hyphen :: replace_kebab (char :: rest).
Proof.
  intros Hc. change (replace_kebab (hyphen :: char :: rest))
    with (if (hyphen =? hyphen) && is_lower char
          then toUpperCase [char] ++ replace_kebab rest
          else hyphen :: replace_kebab (char :: rest)).
  rewrite Hc. reflexivity.
Qed.

(** Induction two units at a time, as the scan advances. *)
Lemma jsstring_pair_ind (P : jsstring -> Prop) :
  P [] -> (forall c, P [c]) ->
  (forall c d s, P s -> P (d :: s) -> P (c :: d :: s)) ->
  forall s, P s.
Proof.
  intros Hnil Hone Hstep s.
  assert (P s /\ forall c, P (c :: s)) as [Hs _]; [|exact Hs].
  induction s as [|d s [IH1 IH2]]; split; auto.
Qed.

Lemma replace_kebab_nonempty name : name <> [] -> replace_kebab name <> [].
Proof.
  induction name as [|c|c d s IH1 IH2] using jsstring_pair_ind; intros Hne;
    [done|done|].
  destruct ((c =? hyphen) && is_lower d) eqn:E.
  - apply andb_true_iff in E as [Ec Ed]. apply N.eqb_eq in Ec. subst c.
    rewrite replace_kebab_collapse by done. done.
  - assert (replace_kebab (c :: d :: s) = c :: replace_kebab (d :: s)) as ->.
    { simpl. now rewrite E. }
    done.
Qed.

(** A part that begins with a hyphen is scanned on its own: the hyphen is
    not [[a-z]], so no match of the scan straddles the cut. *)
Lemma replace_kebab_app_hyphen p r :
  replace_kebab (p ++ hyphen :: r)
  = replace_kebab p ++ replace_kebab (hyphen :: r).
Proof.
  induction p as [|c|c d s IH1 IH2] using jsstring_pair_ind.
  - reflexivity.
  - change ([c] ++ hyphen :: r) with (c :: hyphen :: r).
    destruct (c =? hyphen) eqn:Ec.
    + apply N.eqb_eq in Ec. subst c. now rewrite replace_kebab_keep.
    + now rewrite replace_kebab_copy.
  - change ((c :: d :: s) ++ hyphen :: r) with (c :: d :: (s ++ hyphen :: r)).
    destruct ((c =? hyphen) && is_lower d) eqn:E.
    + apply andb_true_iff in E as [Ec Ed]. apply N.eqb_eq in Ec. subst c.
      rewrite !replace_kebab_collapse by done. now rewrite IH1.
    + assert (forall t, replace_kebab (c :: d :: t) = c :: replace_kebab (d :: t))
        as Hcopy by (intros t; simpl; now rewrite E).
      rewrite !Hcopy.
      change (d :: s ++ hyphen :: r) with ((d :: s) ++ hyphen :: r).
      now rewrite IH2.
Qed.

(** Lowercase letters are copied. *)
Lemma replace_kebab_lowercase_prefix w r :
  forallb is_lower w = true -> replace_kebab (w ++ r) = w ++ replace_kebab r.
Proof.
  induction w as [|c w IH]; intros Hw; [reflexivity|].
  simpl in Hw. apply andb_true_iff in Hw as [Hc Hw].
  change ((c :: w) ++ r) with (c :: (w ++ r)).
  rewrite replace_kebab_copy by now apply is_lower_not_hyphen.
  now rewrite IH.
Qed.

Lemma replace_kebab_no_pair s : has_kebab_pair s = false -> replace_kebab s = s.
Proof.
  induction s as [|c s IH]; intros Hs; [reflexivity|].
  destruct s as [|d s]; [reflexivity|].
  change (has_kebab_pair (c :: d :: s))
    with (((c =? hyphen) && is_lower d) || has_kebab_pair (d :: s)) in Hs.
  apply orb_false_iff in Hs as [E Hs].
  assert (replace_kebab (c :: d :: s) = c :: replace_kebab (d :: s)) as ->
    by (simpl; now rewrite E).
  now rewrite IH.
Qed.

Lemma replace_leading_upper_app s t :
  s <> [] -> replace_leading_upper (s ++ t) = replace_leading_upper s ++ t.
Proof.
  destruct s as [|c s]; [done|]. intros _.
  change ((c :: s) ++ t) with (c :: (s ++ t)). unfold replace_leading_upper.
  destruct (is_upper c); [|reflexivity]. now rewrite app_assoc.
Qed.

Lemma replace_leading_upper_nonempty s : s <> [] -> replace_leading_upper s <> [].
Proof.
  destruct s as [|c s]; [done|]. intros _. unfold replace_leading_upper.
  destruct (is_upper c) eqn:E; [|done].
  rewrite toLowerCase_unit, lower_unit_upper by done. done.
Qed.

(** The normaliser in one equation, for a non-empty name. *)
Lemma normalizeComponentName_nonempty name :
  name <> [] ->
  exists c rest,
    replace_leading_upper (replace_kebab name) = c :: rest /\
    normalizeComponentName name
    = Normal {| camelCase := c :: rest; pascalCase := toUpperCase [c] ++ rest |}.
Proof.
  intros Hne. unfold normalizeComponentName.
  pose proof (replace_leading_upper_nonempty _ (replace_kebab_nonempty _ Hne)) as Hc.
  destruct (replace_leading_upper (replace_kebab name)) as [|c rest]; [done|].
  exists c, rest. split; reflexivity.
Qed.

Lemma normalizeComponentName_camel name c rest :
  replace_leading_upper (replace_kebab name) = c :: rest ->
  normalizeComponentName name
  = Normal {| camelCase := c :: rest; pascalCase := toUpperCase [c] ++ rest |}.
Proof. intros E. unfold normalizeComponentName. now rewrite E. Qed.

Lemma normalizeComponentName_Normal_inv name r :
  normalizeComponentName name = Normal r ->
  exists c rest,
    replace_leading_upper (replace_kebab name) = c :: rest /\
    r = {| camelCase := c :: rest; pascalCase := toUpperCase [c] ++ rest |}.
Proof.
  unfold normalizeComponentName.
  destruct (replace_leading_upper (replace_kebab name)) as [|c rest]; [done|].
  intros [= <-]. now exists c, rest.
Qed.

(** The camelCase of a valid name: its first letter in lowercase, then the
    scan of the rest. *)
Lemma camelCase_of_valid n0 tl :
  validNameRegex_test (n0 :: tl) = true ->
  replace_leading_upper (replace_kebab (n0 :: tl))
  = (if is_upper n0 then n0 + 32 else n0) :: replace_kebab tl
  /\ is_lower (if is_upper n0 then n0 + 32 else n0) = true.
Proof.
  unfold validNameRegex_test. intros Hv. apply andb_true_iff in Hv as [Hn0 _].
  assert ((n0 =? hyphen) = false) as Hh.
  { apply orb_true_iff in Hn0 as [Hl|Hu];
      [now apply is_lower_not_hyphen | now apply is_upper_not_hyphen]. }
  rewrite replace_kebab_copy by done. unfold replace_leading_upper.
  destruct (is_upper n0) eqn:Hu.
  - rewrite toLowerCase_unit, lower_unit_upper by done.
    split; [reflexivity | now apply lower_of_upper_is_lower].
  - split; [reflexivity|]. unfold is_letter in Hn0. now rewrite Hu, orb_false_r in Hn0.
Qed.

Lemma lowercase_word_inv w :
  lowercase_word w = true ->
  exists c rest, w = c :: rest /\ is_lower c = true /\ forallb is_lower rest = true.
Proof.
  unfold lowercase_word. destruct w as [|c rest]; [done|]. simpl.
  intros Hw. apply andb_true_iff in Hw as [Hc Hrest]. now exists c, rest.
Qed.

Lemma replace_kebab_words ws :
  forallb lowercase_word ws = true ->
  replace_kebab (flat_map (fun x => hyphen :: x) ws) = concat (map capitalize ws).
Proof.
  induction ws as [|w ws IH]; intros Hws; [reflexivity|].
  simpl in Hws. apply andb_true_iff in Hws as [Hw Hws].
  destruct (lowercase_word_inv _ Hw) as (c & rest & -> & Hc & Hrest).
  change (flat_map (fun x => hyphen :: x) ((c :: rest) :: ws))
    with (hyphen :: c :: (rest ++ flat_map (fun x => hyphen :: x) ws)).
  rewrite replace_kebab_collapse, replace_kebab_lowercase_prefix, IH by done.
  simpl. now rewrite Hc.
Qed.

Lemma is_lower_is_letter c : is_lower c = true -> is_letter c = true.
Proof. unfold is_letter. now intros ->. Qed.

Lemma letters_capitalize w :
  lowercase_word w = true -> forallb is_letter (capitalize w) = true.
Proof.
  intros Hw. destruct (lowercase_word_inv _ Hw) as (c & rest & -> & Hc & Hrest).
  simpl. rewrite Hc. apply andb_true_iff. split.
  - unfold is_letter. rewrite (upper_of_lower_is_upper c Hc). apply orb_true_r.
  - apply forallb_forall. intros x Hx. apply is_lower_is_letter.
    now apply (proj1 (forallb_forall _ _) Hrest).
Qed.

Lemma letters_camel_of_words words :
  forallb lowercase_word words = true ->
  forallb is_letter (camel_of_words words) = true.
Proof.
  destruct words as [|w ws]; [reflexivity|]. simpl.
  intros Hws. apply andb_true_iff in Hws as [Hw Hws].
  rewrite forallb_app. apply andb_true_iff. split.
  - destruct (lowercase_word_inv _ Hw) as (c & rest & -> & Hc & Hrest).
    apply forallb_forall. intros x Hx. apply is_lower_is_letter.
    apply (proj1 (forallb_forall is_lower (c :: rest))); [|done].
    simpl. now rewrite Hc.
  - induction ws as [|x ws IH]; [reflexivity|]. simpl in *.
    apply andb_true_iff in Hws as [Hx Hws].
    rewrite forallb_app, letters_capitalize, IH by done. reflexivity.
Qed.

Lemma is_letter_not_hyphen c : is_letter c = true -> c <> hyphen.
Proof.
  unfold is_letter. intros Hc ->. now vm_compute in Hc.
Qed.

End StringFacts.

(** C1. For a kebab-case name [word1-word2-...-wordN] of non-empty words of
    lowercase letters, [normalizeComponentName] returns as camelCase the first
    word followed by the other words capitalized, with no hyphen left and a
    lowercase first letter, and as pascalCase that string with its first
    letter in uppercase. *)
Theorem normalizeComponentName_kebab `{JsEngine} (words : list jsstring) :
  words <> [] ->
  forallb lowercase_word words = true ->
  normalizeComponentName (kebab words)
  = Normal {| camelCase := camel_of_words words;
              pascalCase := capitalize (camel_of_words words) |}
  /\ (hyphen ∉ camel_of_words words)
  /\ (exists c rest,
       camel_of_words words = c :: rest /\ is_lower c = true /\
       capitalize (camel_of_words words) = (c - 32) :: rest).
Proof.
  intros Hne Hwords. pose proof (letters_camel_of_words _ Hwords) as Hletters.
  destruct words as [|w ws]; [done|].
  simpl in Hwords. apply andb_true_iff in Hwords as [Hw Hws].
  destruct (lowercase_word_inv _ Hw) as (c & rest & -> & Hc & Hrest).
  assert (replace_leading_upper (replace_kebab (kebab ((c :: rest) :: ws)))
          = c :: rest ++ concat (map capitalize ws)) as Hcamel.
  { unfold kebab.
    rewrite replace_kebab_lowercase_prefix by (simpl; now rewrite Hc).
    rewrite replace_kebab_words by done. simpl.
    now rewrite (is_lower_not_upper c Hc). }
  split; [|split].
  - rewrite (normalizeComponentName_camel _ _ _ Hcamel).
    rewrite toUpperCase_unit, upper_unit_lower by done.
    simpl. now rewrite Hc.
  - intros Hin. apply list_elem_of_In in Hin.
    apply (proj1 (forallb_forall _ _) Hletters) in Hin.
    now apply is_letter_not_hyphen in Hin.
  - exists c, (rest ++ concat (map capitalize ws)).
    simpl. now rewrite Hc.
Qed.

Lemma normalizeComponentName_kebab_witness :
  @normalizeComponentName ascii_engine (lit "my-component")
  = Normal {| camelCase := lit "myComponent"; pascalCase := lit "MyComponent" |}.
Proof.
  exact (proj1 (@normalizeComponentName_kebab ascii_engine
                  [lit "my"; lit "component"]
                  ltac:(discriminate) ltac:(reflexivity))).
Defined.

(** C2. For every non-empty name the normaliser returns, and its pascalCase
    is its camelCase with the first code unit replaced by its uppercase form
    and every other code unit unchanged; for an ASCII first unit the uppercase
    form is one unit.  For a name that matches the validation pattern both
    results are non-empty: camelCase begins with a lowercase letter and
    pascalCase with the matching uppercase letter. *)
Theorem pascalCase_capitalizes_camelCase `{JsEngine} (name : jsstring) :
  name <> [] ->
  exists c rest,
    normalizeComponentName name
    = Normal {| camelCase := c :: rest; pascalCase := toUpperCase [c] ++ rest |}
    /\ (c < 128 -> toUpperCase [c] = [if is_lower c then c - 32 else c])
    /\ (validNameRegex_test name = true ->
        is_lower c = true /\ is_upper (c - 32) = true /\
        normalizeComponentName name
        = Normal {| camelCase := c :: rest; pascalCase := (c - 32) :: rest |}).
Proof.
  intros Hne.
  destruct (normalizeComponentName_nonempty name Hne) as (c & rest & Hcamel & Hn).
  exists c, rest. split; [exact Hn|]. split.
  - intros Hc. rewrite toUpperCase_unit. unfold upper_unit.
    destruct (is_lower c); [reflexivity|].
    now rewrite (proj2 (N.ltb_lt c 128) Hc).
  - intros Hvalid. destruct name as [|n0 tl]; [done|].
    destruct (camelCase_of_valid _ _ Hvalid) as [Hhead Hlower].
    rewrite Hhead in Hcamel. injection Hcamel as <- <-.
    split; [exact Hlower|]. split; [now apply upper_of_lower_is_upper|].
    rewrite Hn, toUpperCase_unit, upper_unit_lower by done. reflexivity.
Qed.

Lemma pascalCase_capitalizes_camelCase_witness :
  exists c rest,
    @normalizeComponentName ascii_engine (lit "x")
    = Normal {| camelCase := c :: rest;
                pascalCase := @toUpperCase ascii_engine [c] ++ rest |}
    /\ (c < 128 -> @toUpperCase ascii_engine [c] = [if is_lower c then c - 32 else c])
    /\ (validNameRegex_test (lit "x") = true ->
        is_lower c = true /\ is_upper (c - 32) = true /\
        @normalizeComponentName ascii_engine (lit "x")
        = Normal {| camelCase := c :: rest; pascalCase := (c - 32) :: rest |}).
Proof.
  apply (@pascalCase_capitalizes_camelCase ascii_engine (lit "x")). discriminate.
Defined.

(** C6. For a name that matches the validation pattern, camelCase begins
    with a lowercase letter: the name's first letter, lowercased when it is
    an uppercase letter. *)
Theorem camelCase_first_lowercase `{JsEngine} (name : jsstring) :
  validNameRegex_test name = true ->
  exists n0 tl r rest,
    name = n0 :: tl /\
    normalizeComponentName name = Normal r /\
    camelCase r = (if is_upper n0 then n0 + 32 else n0) :: rest /\
    is_lower (if is_upper n0 then n0 + 32 else n0) = true.
Proof.
  intros Hvalid. destruct name as [|n0 tl]; [done|].
  destruct (camelCase_of_valid _ _ Hvalid) as [Hhead Hlower].
  eexists n0, tl, _, (replace_kebab tl).
  split; [reflexivity|]. split; [apply (normalizeComponentName_camel _ _ _ Hhead)|].
  split; [reflexivity | exact Hlower].
Qed.

Lemma camelCase_first_lowercase_witness :
  validNameRegex_test (lit "MyComponent") = true /\
  exists n0 tl r rest,
    lit "MyComponent" = n0 :: tl /\
    @normalizeComponentName ascii_engine (lit "MyComponent") = Normal r /\
    camelCase r = (if is_upper n0 then n0 + 32 else n0) :: rest /\
    is_lower (if is_upper n0 then n0 + 32 else n0) = true.
Proof.
  split; [reflexivity|].
  apply (@camelCase_first_lowercase ascii_engine (lit "MyComponent")).
  reflexivity.
Defined.

Example scenario3 `{JsEngine} :
  normalizeComponentName (lit "x")
  = Normal {| camelCase := lit "x"; pascalCase := lit "X" |}.
Proof. reflexivity. Qed.

Example scenario2 `{JsEngine} :
  normalizeComponentName (lit "MyComponent")
  = Normal {| camelCase := lit "myComponent"; pascalCase := lit "MyComponent" |}.
Proof. reflexivity. Qed.

(** C7. Only a hyphen immediately followed by a lowercase ASCII letter is
    collapsed.  In the scan, at any position: a hyphen followed by anything
    but a lowercase letter (a digit, an uppercase letter, another hyphen, the
    end of the name) is copied, and a hyphen followed by a lowercase letter is
    replaced, with that letter, by the letter in uppercase.  In the results,
    after any name [p] that normalises: a hyphen followed by a digit or an
    uppercase letter stays, with that unit, in camelCase and in pascalCase;
    a hyphen followed by a lowercase letter is collapsed in both.  A name
    with no hyphen before a lowercase letter is left as it is by the scan.
    The name [my-2nd] keeps its hyphen. *)
Theorem hyphen_collapsed_only_before_lowercase `{JsEngine} :
  (forall p t,
      (forall d t', t = d :: t' -> is_lower d = false) ->
      replace_kebab (p ++ hyphen :: t) = replace_kebab p ++ hyphen :: replace_kebab t)
  /\ (forall p l q,
      is_lower l = true ->
      replace_kebab (p ++ hyphen :: l :: q)
      = replace_kebab p ++ (l - 32) :: replace_kebab q)
  /\ (forall p d q rp,
      is_digit d || is_upper d = true ->
      normalizeComponentName p = Normal rp ->
      normalizeComponentName (p ++ hyphen :: d :: q)
      = Normal {| camelCase := camelCase rp ++ hyphen :: d :: replace_kebab q;
                  pascalCase := pascalCase rp ++ hyphen :: d :: replace_kebab q |})
  /\ (forall p l q rp,
      is_lower l = true ->
      normalizeComponentName p = Normal rp ->
      normalizeComponentName (p ++ hyphen :: l :: q)
      = Normal {| camelCase := camelCase rp ++ (l - 32) :: replace_kebab q;
                  pascalCase := pascalCase rp ++ (l - 32) :: replace_kebab q |})
  /\ (forall name, has_kebab_pair name = false -> replace_kebab name = name)
  /\ normalizeComponentName (lit "my-2nd")
     = Normal {| camelCase := lit "my-2nd"; pascalCase := lit "My-2nd" |}.
Proof.
  assert (forall p rp t,
             normalizeComponentName p = Normal rp ->
             normalizeComponentName (p ++ hyphen :: t)
             = Normal {| camelCase := camelCase rp ++ replace_kebab (hyphen :: t);
                         pascalCase := pascalCase rp ++ replace_kebab (hyphen :: t) |})
    as Hcut.
  { intros p rp t Hp.
    destruct (normalizeComponentName_Normal_inv _ _ Hp) as (c & rest & Hcamel & ->).
    assert (replace_kebab p <> []) as Hne
      by (intros E; rewrite E in Hcamel; discriminate).
    rewrite (normalizeComponentName_camel _ c (rest ++ replace_kebab (hyphen :: t))).
    - cbn [camelCase pascalCase]. now rewrite <- app_assoc.
    - now rewrite replace_kebab_app_hyphen, replace_leading_upper_app, Hcamel. }
  split; [|split; [|split; [|split; [|split]]]].
  - intros p t Ht. rewrite replace_kebab_app_hyphen. f_equal.
    destruct t as [|d t']; [reflexivity|].
    apply replace_kebab_keep. now apply (Ht d t').
  - intros p l q Hl. rewrite replace_kebab_app_hyphen.
    now rewrite replace_kebab_collapse.
  - intros p d q rp Hd Hp. rewrite (Hcut _ _ _ Hp).
    assert (is_lower d = false /\ (d =? hyphen) = false) as [Hl Hh].
    { apply orb_true_iff in Hd as [Hd|Hd].
      - unfold is_digit in Hd. apply andb_true_iff in Hd as [H1 H2].
        apply N.leb_le in H1, H2. split.
        + destruct (is_lower d) eqn:E; [|done]. apply is_lower_bounds in E. lia.
        + apply N.eqb_neq. unfold hyphen. lia.
      - split; [|now apply is_upper_not_hyphen].
        destruct (is_lower d) eqn:E; [|done].
        apply is_lower_not_upper in E. congruence. }
    now rewrite replace_kebab_keep, replace_kebab_copy.
  - intros p l q rp Hl Hp. rewrite (Hcut _ _ _ Hp).
    now rewrite replace_kebab_collapse.
  - apply replace_kebab_no_pair.
  - reflexivity.
Qed.

Lemma hyphen_collapsed_only_before_lowercase_witness :
  @normalizeComponentName ascii_engine (lit "my-2nd")
  = Normal {| camelCase := lit "my-2nd"; pascalCase := lit "My-2nd" |}
  /\ @normalizeComponentName ascii_engine (lit "my-Nd")
     = Normal {| camelCase := lit "my-Nd"; pascalCase := lit "My-Nd" |}
  /\ @normalizeComponentName ascii_engine (lit "my-nd")
     = Normal {| camelCase := lit "myNd"; pascalCase := lit "MyNd" |}
  /\ @replace_kebab ascii_engine (lit "my-") = lit "my-"
  /\ @replace_kebab ascii_engine (lit "-x") = lit "X"
  /\ @replace_kebab ascii_engine (lit "my-2nd-A-") = lit "my-2nd-A-".
Proof.
  destruct (@hyphen_collapsed_only_before_lowercase ascii_engine)
    as (Hcopy & Hscan & Hkeep & Hcollapse & Hnone & _).
  split; [|split; [|split; [|split; [|split]]]].
  - exact (Hkeep (lit "my") 50 (lit "nd")
             {| camelCase := lit "my"; pascalCase := lit "My" |}
             eq_refl eq_refl).
  - exact (Hkeep (lit "my") 78 (lit "d")
             {| camelCase := lit "my"; pascalCase := lit "My" |}
             eq_refl eq_refl).
  - exact (Hcollapse (lit "my") 110 (lit "d")
             {| camelCase := lit "my"; pascalCase := lit "My" |}
             eq_refl eq_refl).
  - apply (Hcopy (lit "my") []). discriminate.
  - exact (Hscan [] 120 [] eq_refl).
  - exact (Hnone (lit "my-2nd-A-") eq_refl).
Defined.

(** C8. [normalizeComponentName] returns a result for every non-empty
    string, and for the empty string it throws: [camelCase[0]] is [undefined]
    and reading its [toUpperCase] is a [TypeError]. *)
Theorem normalizeComponentName_succeeds_iff_nonempty `{JsEngine} :
  (forall name, name <> [] -> exists r, normalizeComponentName name = Normal r)
  /\ normalizeComponentName [] = Throw (ErrorObject undefined_read_message)
  /\ (forall name r, normalizeComponentName name = Normal r -> name <> []).
Proof.
  split; [|split].
  - intros name Hne.
    destruct (normalizeComponentName_nonempty name Hne) as (c & rest & _ & Hn).
    eauto.
  - reflexivity.
  - intros name r Hn ->. discriminate Hn.
Qed.

Lemma normalizeComponentName_succeeds_iff_nonempty_witness :
  (exists r, @normalizeComponentName ascii_engine (lit "x") = Normal r)
  /\ @normalizeComponentName ascii_engine (lit "")
     = Throw (ErrorObject (@undefined_read_message ascii_engine)).
Proof.
  destruct (@normalizeComponentName_succeeds_iff_nonempty ascii_engine)
    as (Hsome & Hempty & _).
  split; [apply Hsome; discriminate | exact Hempty].
Defined.

(** ** Runs of the command handler *)

Section HandlerFacts.
Context `{JsEngine} `{NodeHost}.

(** The [try]/[catch] of the handler, by the outcome of its body. *)
Lemma createLWC_unfold inv w :
  createLWC inv w
  = match createLWC_body inv w with
    | (Normal a, w') => (Normal a, w')
    | (Throw e, w') =>
        (Normal tt,
         log_call (ShowErrorMessage (lit "Error creating LWC: " ++ error_text e)) w')
    end.
Proof.
  unfold createLWC, try_catch.
  destruct (createLWC_body inv w) as [[a|e] w']; [reflexivity|].
  now destruct e.
Qed.

Lemma normalizeComponentName_truthy rawName n :
  normalizeComponentName rawName = Normal n -> truthy rawName = true.
Proof. destruct rawName; [discriminate | reflexivity]. Qed.

(** The body up to the first prompt. *)
Lemma createLWC_body_prompted inv w targetDir :
  resolve_targetDir inv = Some targetDir ->
  createLWC_body inv w
  = match inputBox_answer inv with
    | Throw e => (Throw e, log_call ShowInputBox w)
    | Normal None => (Normal tt, log_call ShowInputBox w)
    | Normal (Some rawName) =>
        if negb (truthy rawName) then (Normal tt, log_call ShowInputBox w)
        else
          match normalizeComponentName rawName with
          | Throw e => (Throw e, log_call ShowInputBox w)
          | Normal n =>
              let w2 := log_call (ShowQuickPick fileOption_items)
                          (log_call ShowInputBox w) in
              match quickPick_answer inv with
              | Throw e => (Throw e, w2)
              | Normal None | Normal (Some []) => (Normal tt, w2)
              | Normal (Some fileOptions) =>
                  create_files targetDir (camelCase n) (pascalCase n) fileOptions w2
              end
          end
    end.
Proof.
  intros Ht. unfold createLWC_body. rewrite Ht.
  unfold showInputBox, showQuickPick, bind, call, lift, ret.
  destruct (inputBox_answer inv) as [[rawName|]|e]; try reflexivity.
  destruct (negb (truthy rawName)); [reflexivity|].
  destruct (normalizeComponentName rawName) as [n|e]; [|reflexivity].
  destruct (quickPick_answer inv) as [[[|file fileOptions]|]|e]; reflexivity.
Qed.

(** The body once both prompts are answered. *)
Lemma createLWC_body_confirmed inv w targetDir rawName n fileOptions :
  resolve_targetDir inv = Some targetDir ->
  inputBox_answer inv = Normal (Some rawName) ->
  normalizeComponentName rawName = Normal n ->
  quickPick_answer inv = Normal (Some fileOptions) ->
  fileOptions <> [] ->
  createLWC_body inv w
  = create_files targetDir (camelCase n) (pascalCase n) fileOptions
      (log_call (ShowQuickPick fileOption_items) (log_call ShowInputBox w)).
Proof.
  intros Ht Hi Hn Hq Hne. rewrite (createLWC_body_prompted _ _ _ Ht), Hi.
  rewrite (normalizeComponentName_truthy _ _ Hn), Hn, Hq. simpl negb. cbv iota.
  now destruct fileOptions.
Qed.

(** The callback of [forEach], by the template of the item. *)
Lemma write_file_template componentDir camelCaseName pascalCaseName file :
  write_file componentDir camelCaseName pascalCaseName file
  = match template_for pascalCaseName file with
    | Some data => writeFileSync (target_path componentDir camelCaseName file) data
    | None => ret tt
    end.
Proof.
  unfold write_file, template_for, target_path.
  repeat case_bool_decide; reflexivity.
Qed.

Lemma template_for_HTML pascalCaseName file :
  label file = lit "HTML" -> template_for pascalCaseName file = Some html_template.
Proof. unfold template_for. now intros ->. Qed.

Lemma target_path_HTML componentDir camelCaseName file :
  label file = lit "HTML" ->
  target_path componentDir camelCaseName file
  = path_join componentDir (camelCaseName ++ lit ".html").
Proof. unfold target_path. now intros ->. Qed.

Lemma create_files_unfold targetDir camelCaseName pascalCaseName fileOptions w :
  create_files targetDir camelCaseName pascalCaseName fileOptions w
  = let componentDir := path_join targetDir camelCaseName in
    match (if fs_exists (fs w) componentDir then (Normal tt, w)
           else mkdirSync componentDir w) with
    | (Throw e, w1) => (Throw e, w1)
    | (Normal _, w1) =>
        match forEach fileOptions
                (write_file componentDir camelCaseName pascalCaseName) w1 with
        | (Throw e, w2) => (Throw e, w2)
        | (Normal _, w2) =>
            (Normal tt,
             log_call (ShowInformationMessage
                         (success_message camelCaseName componentDir)) w2)
        end
    end.
Proof.
  unfold create_files, bind, existsSync, call, ret. cbv zeta.
  destruct (fs_exists (fs w) (path_join targetDir camelCaseName)); reflexivity.
Qed.

Lemma createLWC_inputBox_dismissed inv f targetDir :
  resolve_targetDir inv = Some targetDir ->
  inputBox_answer inv = Normal None ->
  createLWC inv (start f) = (Normal tt, {| fs := f; calls := [ShowInputBox] |}).
Proof.
  intros Ht Hi. rewrite createLWC_unfold, (createLWC_body_prompted _ _ _ Ht), Hi.
  reflexivity.
Qed.

Lemma createLWC_no_selection inv f targetDir rawName :
  resolve_targetDir inv = Some targetDir ->
  inputBox_answer inv = Normal (Some rawName) ->
  rawName <> [] ->
  quickPick_answer inv = Normal None \/ quickPick_answer inv = Normal (Some []) ->
  createLWC inv (start f)
  = (Normal tt,
     {| fs := f; calls := [ShowInputBox; ShowQuickPick fileOption_items] |}).
Proof.
  intros Ht Hi Hne Hq.
  rewrite createLWC_unfold, (createLWC_body_prompted _ _ _ Ht), Hi.
  destruct (normalizeComponentName_nonempty rawName Hne) as (c & rest & _ & Hn).
  rewrite (normalizeComponentName_truthy _ _ Hn), Hn.
  now destruct Hq as [-> | ->].
Qed.

End HandlerFacts.

(** C4. When the user dismisses the input box, or answers it and dismisses
    the quick pick, the handler returns with the file system untouched: the
    log holds the prompts only, no [mkdirSync], no [writeFileSync] and no
    notification. *)
Theorem dismissed_prompt_is_silent `{JsEngine} `{NodeHost}
    (inv : Invocation) (f : FileSystem) (targetDir : jsstring) :
  resolve_targetDir inv = Some targetDir ->
  (inputBox_answer inv = Normal None ->
   createLWC inv (start f) = (Normal tt, {| fs := f; calls := [ShowInputBox] |}))
  /\ (forall rawName,
         inputBox_answer inv = Normal (Some rawName) ->
         rawName <> [] ->
         quickPick_answer inv = Normal None ->
         createLWC inv (start f)
         = (Normal tt,
            {| fs := f; calls := [ShowInputBox; ShowQuickPick fileOption_items] |}))
  /\ (forall w',
         inputBox_answer inv = Normal None \/
         ((exists rawName, inputBox_answer inv = Normal (Some rawName) /\ rawName <> [])
          /\ quickPick_answer inv = Normal None) ->
         createLWC inv (start f) = (Normal tt, w') ->
         fs w' = f /\ filter (fun c => is_fs_write c = true) (calls w') = []
         /\ notifications (calls w') = []).
Proof.
  intros Ht.
  pose proof (createLWC_inputBox_dismissed inv f targetDir Ht) as Hfirst.
  assert (forall rawName,
             inputBox_answer inv = Normal (Some rawName) ->
             rawName <> [] ->
             quickPick_answer inv = Normal None ->
             createLWC inv (start f)
             = (Normal tt,
                {| fs := f; calls := [ShowInputBox; ShowQuickPick fileOption_items] |}))
    as Hsecond
    by (intros rawName Hi Hne Hq; apply (createLWC_no_selection _ _ _ _ Ht Hi Hne); auto).
  split; [exact Hfirst|]. split; [exact Hsecond|].
  intros w' [Hi|[(rawName & Hi & Hne) Hq]] Hrun.
  - rewrite (Hfirst Hi) in Hrun. injection Hrun as <-. now repeat split.
  - rewrite (Hsecond _ Hi Hne Hq) in Hrun. injection Hrun as <-. now repeat split.
Qed.

Lemma dismissed_prompt_is_silent_witness :
  @createLWC ascii_engine posix_host (invocation None None) (start existing_component)
  = (Normal tt, {| fs := existing_component; calls := [ShowInputBox] |})
  /\ @createLWC ascii_engine posix_host (invocation (Some (lit "my-component")) None)
       (start existing_component)
     = (Normal tt,
        {| fs := existing_component;
           calls := [ShowInputBox; ShowQuickPick fileOption_items] |}).
Proof.
  split.
  - apply (@dismissed_prompt_is_silent ascii_engine posix_host
             (invocation None None) existing_component (lit "/ws/lwc") eq_refl).
    reflexivity.
  - apply (proj1 (proj2 (@dismissed_prompt_is_silent ascii_engine posix_host
             (invocation (Some (lit "my-component")) None) existing_component
             (lit "/ws/lwc") eq_refl)) (lit "my-component"));
      [reflexivity | discriminate | reflexivity].
Defined.

(** C9. When the user confirms the quick pick with nothing selected, the
    handler returns as it does when the quick pick is dismissed: the file
    system is untouched and the log holds the two prompts only. *)
Theorem empty_selection_is_cancellation `{JsEngine} `{NodeHost}
    (inv : Invocation) (f : FileSystem) (targetDir rawName : jsstring) :
  resolve_targetDir inv = Some targetDir ->
  inputBox_answer inv = Normal (Some rawName) ->
  rawName <> [] ->
  quickPick_answer inv = Normal (Some []) ->
  createLWC inv (start f)
  = (Normal tt, {| fs := f; calls := [ShowInputBox; ShowQuickPick fileOption_items] |})
  /\ createLWC inv (start f) = createLWC (dismiss_quickPick inv) (start f).
Proof.
  intros Ht Hi Hne Hq.
  rewrite (createLWC_no_selection inv f targetDir rawName Ht Hi Hne) by auto.
  split; [reflexivity|]. symmetry.
  apply (createLWC_no_selection (dismiss_quickPick inv) f targetDir rawName);
    [exact Ht | exact Hi | exact Hne | now left].
Qed.

Lemma empty_selection_is_cancellation_witness :
  @createLWC ascii_engine posix_host
    (invocation (Some (lit "my-component")) (Some [])) (start existing_component)
  = (Normal tt,
     {| fs := existing_component;
        calls := [ShowInputBox; ShowQuickPick fileOption_items] |})
  /\ @createLWC ascii_engine posix_host
       (invocation (Some (lit "my-component")) (Some [])) (start existing_component)
     = @createLWC ascii_engine posix_host
         (dismiss_quickPick (invocation (Some (lit "my-component")) (Some [])))
         (start existing_component).
Proof.
  apply (@empty_selection_is_cancellation ascii_engine posix_host
           (invocation (Some (lit "my-component")) (Some [])) existing_component
           (lit "/ws/lwc") (lit "my-component"));
    [reflexivity | reflexivity | discriminate | reflexivity].
Defined.

(** C3. With only the item labelled HTML selected, the handler calls
    [writeFileSync] at most once, and only for [<camelCase>.html] in the
    component directory with the template as content.  When the file system
    raises no error, the run is: the two prompts, the creation of the
    directory if it was missing, that one write, and the success message;
    the regular files of the file system change at that path only. *)
Theorem html_only_writes_one_file `{JsEngine} `{NodeHost}
    (inv : Invocation) (f : FileSystem) (targetDir rawName : jsstring)
    (n : NormalizedName) (file : QuickPickItem) :
  resolve_targetDir inv = Some targetDir ->
  inputBox_answer inv = Normal (Some rawName) ->
  normalizeComponentName rawName = Normal n ->
  quickPick_answer inv = Normal (Some [file]) ->
  label file = lit "HTML" ->
  let componentDir := path_join targetDir (camelCase n) in
  let htmlPath := path_join componentDir (camelCase n ++ lit ".html") in
  let f1 := if fs_exists f componentDir then f else fs_mkdir f componentDir in
  (exists w',
      createLWC inv (start f) = (Normal tt, w') /\
      (written_files (calls w') = [] \/
       written_files (calls w') = [(htmlPath, html_template)]))
  /\ ((fs_exists f componentDir = false -> fs_fault f (Mkdir componentDir) = None) ->
      fs_fault f1 (WriteFile htmlPath html_template) = None ->
      htmlPath ∉ dirs f1 ->
      exists w',
        createLWC inv (start f) = (Normal tt, w') /\
        calls w'
        = [ShowInputBox; ShowQuickPick fileOption_items]
            ++ (if fs_exists f componentDir then [] else [FsMkdir componentDir])
            ++ [FsWriteFile htmlPath html_template;
                ShowInformationMessage (success_message (camelCase n) componentDir)] /\
        files (fs w') = <[ htmlPath := html_template ]> (files f) /\
        dirs (fs w') = dirs f1).
Proof.
  intros Ht Hi Hn Hq Hl componentDir htmlPath f1.
  assert (createLWC_body inv (start f)
          = create_files targetDir (camelCase n) (pascalCase n) [file]
              (log_call (ShowQuickPick fileOption_items)
                 (log_call ShowInputBox (start f)))) as Hbody
    by now apply (createLWC_body_confirmed _ _ _ rawName).
  rewrite createLWC_unfold, Hbody, create_files_unfold.
  cbv zeta. fold componentDir.
  unfold forEach, bind, ret. rewrite write_file_template.
  rewrite (template_for_HTML _ _ Hl), (target_path_HTML _ _ _ Hl). fold htmlPath.
  unfold mkdirSync, writeFileSync. subst f1. cbn [fs log_call calls start].
  split.
  - destruct (fs_exists f componentDir); cbn [fs log_call calls start].
    + destruct (fs_fault f (WriteFile htmlPath html_template)) as [e|];
        [|destruct (bool_decide (htmlPath ∈ dirs f))];
        (eexists; split; [reflexivity|]; cbn; auto).
    + destruct (fs_fault f (Mkdir componentDir)) as [e|];
        cbn [fs log_call calls start];
        [eexists; split; [reflexivity|]; cbn; auto|].
      destruct (fs_fault (fs_mkdir f componentDir) (WriteFile htmlPath html_template))
        as [e|]; [|destruct (bool_decide (htmlPath ∈ dirs (fs_mkdir f componentDir)))];
        (eexists; split; [reflexivity|]; cbn; auto).
  - intros Hmk Hwr Hnd.
    destruct (fs_exists f componentDir); cbn [fs log_call calls start].
    + rewrite Hwr, (bool_decide_eq_false_2 _ Hnd).
      eexists; split; [reflexivity|]. now repeat split.
    + rewrite (Hmk eq_refl). cbn [fs log_call calls start].
      rewrite Hwr, (bool_decide_eq_false_2 _ Hnd).
      eexists; split; [reflexivity|]. now repeat split.
Qed.

Lemma html_only_writes_one_file_witness :
  exists w',
    @createLWC ascii_engine posix_host
      (invocation (Some (lit "my-component")) (Some [item "HTML" true]))
      (start workspace_fs) = (Normal tt, w') /\
    calls w'
    = [ShowInputBox; ShowQuickPick fileOption_items;
       FsMkdir (lit "/ws/lwc/myComponent");
       FsWriteFile (lit "/ws/lwc/myComponent/myComponent.html")
         (lit "<template>" ++ [newline; newline] ++ lit "</template>");
       ShowInformationMessage
         (lit "LWC component 'myComponent' created in '/ws/lwc/myComponent'.")] /\
    files (fs w')
    = <[ lit "/ws/lwc/myComponent/myComponent.html"
         := lit "<template>" ++ [newline; newline] ++ lit "</template>" ]> ∅ /\
    dirs (fs w') = dirs (fs_mkdir workspace_fs (lit "/ws/lwc/myComponent")).
Proof.
  apply (proj2 (@html_only_writes_one_file ascii_engine posix_host
           (invocation (Some (lit "my-component")) (Some [item "HTML" true]))
           workspace_fs (lit "/ws/lwc") (lit "my-component")
           {| camelCase := lit "myComponent"; pascalCase := lit "MyComponent" |}
           (item "HTML" true) eq_refl eq_refl eq_refl eq_refl eq_refl)).
  - reflexivity.
  - reflexivity.
  - apply (bool_decide_eq_false_1 _). vm_compute. reflexivity.
Defined.

(** ** Failures *)

Section Failures.
Context `{JsEngine} `{NodeHost}.

Lemma replay_snoc f cs c : replay f (cs ++ [c]) = apply_call (replay f cs) c.
Proof. unfold replay. now rewrite fold_left_app. Qed.

Lemma notifications_snoc cs c :
  notifications (cs ++ [c])
  = notifications cs ++ (if is_notification c then [c] else []).
Proof.
  unfold notifications. rewrite filter_app. f_equal.
  destruct (is_notification c) eqn:E.
  - now rewrite filter_cons_True.
  - rewrite filter_cons_False; [done|]. now rewrite E.
Qed.

Lemma good_start f : good f (start f).
Proof. now split. Qed.

(** A call that is no notification and succeeds keeps the invariant. *)
Lemma good_log f w c f' :
  good f w -> is_notification c = false -> f' = apply_call (fs w) c ->
  good f {| fs := f'; calls := calls w ++ [c] |}.
Proof.
  intros [Hfs Hn] Hc ->. split; cbn [fs calls].
  - now rewrite replay_snoc, Hfs.
  - now rewrite notifications_snoc, Hn, Hc.
Qed.

(** A call that fails leaves the file system as it was. *)
Lemma failed_log f w c :
  good f w -> is_notification c = false -> failed f (log_call c w).
Proof. intros [Hfs Hn] Hc. now exists (calls w), c. Qed.

Lemma tracked_ret {A} f (a : A) : throws_tracked f (ret a).
Proof. now intros w Hw. Qed.

Lemma tracked_bind {A B} f (m : M A) (k : A -> M B) :
  throws_tracked f m -> (forall a, throws_tracked f (k a)) ->
  throws_tracked f (bind m k).
Proof.
  intros Hm Hk w Hw. unfold bind. specialize (Hm w Hw).
  destruct (m w) as [[a|e] w']; [apply (Hk a w' Hm) | exact Hm].
Qed.

Lemma tracked_existsSync f p : throws_tracked f (existsSync p).
Proof. now intros w Hw. Qed.

Lemma tracked_mkdirSync f p : throws_tracked f (mkdirSync p).
Proof.
  intros w Hw. unfold mkdirSync. cbv zeta.
  destruct (fs_fault (fs w) (Mkdir p)); [now apply failed_log|].
  destruct (fs_exists (fs w) p); [now apply failed_log|].
  now apply good_log.
Qed.

Lemma tracked_writeFileSync f p data : throws_tracked f (writeFileSync p data).
Proof.
  intros w Hw. unfold writeFileSync. cbv zeta.
  destruct (fs_fault (fs w) (WriteFile p data)); [now apply failed_log|].
  destruct (bool_decide (p ∈ dirs (fs w))); [now apply failed_log|].
  now apply good_log.
Qed.

Lemma tracked_write_file f componentDir camelCaseName pascalCaseName file :
  throws_tracked f (write_file componentDir camelCaseName pascalCaseName file).
Proof.
  rewrite write_file_template.
  destruct (template_for pascalCaseName file);
    [apply tracked_writeFileSync | apply tracked_ret].
Qed.

Lemma tracked_forEach {A} f (l : list A) (g : A -> M unit) :
  (forall x, throws_tracked f (g x)) -> throws_tracked f (forEach l g).
Proof.
  intros Hg. induction l as [|x l IH]; [apply tracked_ret|].
  apply tracked_bind; [apply Hg | intros _; exact IH].
Qed.

Lemma tracked_ensure_dir f p (b : bool) :
  throws_tracked f (if b then ret tt else mkdirSync p).
Proof. destruct b; [apply tracked_ret | apply tracked_mkdirSync]. Qed.

Lemma failed_bind {A B} f (m : M A) (k : A -> M B) :
  throws_tracked f m -> (forall a, throws_failed f (k a)) ->
  throws_failed f (bind m k).
Proof.
  intros Hm Hk w Hw e w1. unfold bind. specialize (Hm w Hw).
  destruct (m w) as [[a|e'] w'].
  - apply (Hk a w' Hm).
  - intros [= <- <-]. exact Hm.
Qed.

Lemma failed_call f c : throws_failed f (call c).
Proof. intros w Hw e w1. discriminate. Qed.

Lemma failed_create_files f targetDir camelCaseName pascalCaseName fileOptions :
  throws_failed f (create_files targetDir camelCaseName pascalCaseName fileOptions).
Proof.
  unfold create_files.
  apply failed_bind; [apply tracked_existsSync|]. intros dir_exists.
  apply failed_bind; [apply tracked_ensure_dir|]. intros _.
  apply failed_bind; [|intros _; apply failed_call].
  apply tracked_forEach. intros file. apply tracked_write_file.
Qed.

(** Whatever throws in the body, the failing call is the last of the log
    and every call before it has had its effect. *)
Lemma createLWC_body_failed inv f e w1 :
  createLWC_body inv (start f) = (Throw e, w1) -> failed f w1.
Proof.
  destruct (resolve_targetDir inv) as [targetDir|] eqn:Ht.
  - rewrite (createLWC_body_prompted _ _ _ Ht).
    pose proof (good_start f) as H0w.
    assert (good f (log_call ShowInputBox (start f))) as H1w
      by now apply good_log.
    assert (good f (log_call (ShowQuickPick fileOption_items)
                      (log_call ShowInputBox (start f)))) as H2w
      by now apply good_log.
    destruct (inputBox_answer inv) as [[rawName|]|e1].
    + destruct (negb (truthy rawName)); [discriminate|].
      destruct (normalizeComponentName rawName) as [n|e1].
      * cbv zeta.
        destruct (quickPick_answer inv) as [[[|file fileOptions]|]|e2];
          try discriminate.
        -- apply (failed_create_files f _ _ _ _ _ H2w).
        -- intros [= <- <-]. now apply failed_log.
      * intros [= <- <-]. now apply failed_log.
    + discriminate.
    + intros [= <- <-]. now apply failed_log.
  - unfold createLWC_body. rewrite Ht. discriminate.
Qed.

End Failures.

(** C5. The handler never lets an error through: it always completes
    normally.  When its body throws, the log ends with exactly one
    notification, the error message built from the text of the thrown value;
    the failing call comes just before it and is made once; the file system
    is left as the calls before the failing one made it, nothing being
    undone. *)
Theorem errors_caught_and_reported `{JsEngine} `{NodeHost}
    (inv : Invocation) (f : FileSystem) :
  exists w',
    createLWC inv (start f) = (Normal tt, w') /\
    forall e w1,
      createLWC_body inv (start f) = (Throw e, w1) ->
      w' = {| fs := fs w1;
              calls := calls w1
                         ++ [ShowErrorMessage (lit "Error creating LWC: " ++ error_text e)] |}
      /\ notifications (calls w')
         = [ShowErrorMessage (lit "Error creating LWC: " ++ error_text e)]
      /\ exists done failing,
           calls w1 = done ++ [failing] /\ is_notification failing = false /\
           fs w' = replay f done.
Proof.
  rewrite createLWC_unfold.
  destruct (createLWC_body inv (start f)) as [[[]|e] w1] eqn:Hbody.
  - eexists. split; [reflexivity|]. discriminate.
  - eexists. split; [reflexivity|]. intros e' w1' [= <- <-].
    destruct (createLWC_body_failed _ _ _ _ Hbody)
      as (done & failing & Hcalls & Hfailing & Hdone & Hfs).
    split; [reflexivity|]. split.
    + cbn [calls log_call]. rewrite notifications_snoc, Hcalls, notifications_snoc.
      now rewrite Hdone, Hfailing.
    + now exists done, failing.
Qed.

Lemma errors_caught_and_reported_witness :
  @createLWC ascii_engine readonly_host
    (invocation (Some (lit "my-component")) (Some [item "HTML" true]))
    (start workspace_fs)
  = (Normal tt,
     {| fs := fs_mkdir workspace_fs (lit "/ws/lwc/myComponent");
        calls := [ShowInputBox; ShowQuickPick fileOption_items;
                  FsMkdir (lit "/ws/lwc/myComponent");
                  FsWriteFile (lit "/ws/lwc/myComponent/myComponent.html")
                    (lit "<template>" ++ [newline; newline] ++ lit "</template>");
                  ShowErrorMessage
                    (lit "Error creating LWC: EACCES: permission denied, open '/ws/lwc/myComponent/myComponent.html'")] |}).
Proof.
  destruct (@errors_caught_and_reported ascii_engine readonly_host
              (invocation (Some (lit "my-component")) (Some [item "HTML" true]))
              workspace_fs) as (w' & Hrun & Hthrow).
  rewrite Hrun.
  destruct (Hthrow
              (ErrorObject (lit "EACCES: permission denied, open '/ws/lwc/myComponent/myComponent.html'"))
              {| fs := fs_mkdir workspace_fs (lit "/ws/lwc/myComponent");
                 calls := [ShowInputBox; ShowQuickPick fileOption_items;
                           FsMkdir (lit "/ws/lwc/myComponent");
                           FsWriteFile (lit "/ws/lwc/myComponent/myComponent.html")
                             (lit "<template>" ++ [newline; newline] ++ lit "</template>")] |}
              eq_refl) as (-> & _).
  reflexivity.
Defined.

(** ** An existing component *)

Section Overwrite.
Context `{JsEngine} `{NodeHost}.

Lemma fs_exists_dir f p : p ∈ dirs f -> fs_exists f p = true.
Proof. intros Hp. unfold fs_exists. now rewrite (bool_decide_eq_true_2 _ Hp). Qed.

Lemma mkdir_calls_snoc cs c :
  mkdir_calls (cs ++ [c])
  = mkdir_calls cs ++ match c with FsMkdir p => [p] | _ => [] end.
Proof. unfold mkdir_calls. rewrite flat_map_app. simpl. now rewrite app_nil_r. Qed.

(** Writing files makes no directory, whether the writes succeed or not. *)
Lemma writeFileSync_mkdir_calls p data w :
  mkdir_calls (calls (writeFileSync p data w).2) = mkdir_calls (calls w).
Proof.
  unfold writeFileSync. cbv zeta.
  destruct (fs_fault (fs w) (WriteFile p data));
    [|destruct (bool_decide (p ∈ dirs (fs w)))];
    cbn [snd calls log_call]; rewrite mkdir_calls_snoc; apply app_nil_r.
Qed.

Lemma forEach_write_file_mkdir_calls componentDir camelCaseName pascalCaseName
    fileOptions w :
  mkdir_calls
    (calls (forEach fileOptions
              (write_file componentDir camelCaseName pascalCaseName) w).2)
  = mkdir_calls (calls w).
Proof.
  revert w. induction fileOptions as [|file fileOptions IH]; intros w; [reflexivity|].
  cbn [forEach]. unfold bind. rewrite write_file_template.
  destruct (template_for pascalCaseName file) as [data|].
  - pose proof (writeFileSync_mkdir_calls
                  (target_path componentDir camelCaseName file) data w) as Hw.
    destruct (writeFileSync (target_path componentDir camelCaseName file) data w)
      as [[[]|e] w1]; cbn [snd] in *; [now rewrite IH | exact Hw].
  - unfold ret. apply IH.
Qed.

Lemma write_all_keeps writes m p data :
  (forall data', In (p, data') writes -> data' = data) ->
  m !! p = Some data -> write_all writes m !! p = Some data.
Proof.
  revert m. induction writes as [|[p' d'] writes IH]; intros m Hfun Hm; [exact Hm|].
  cbn [write_all fold_left fst snd]. apply IH.
  - intros data' Hin. apply Hfun. now right.
  - destruct (decide (p' = p)) as [->|Hne].
    + rewrite (Hfun d') by now left. apply lookup_insert_eq.
    + now rewrite lookup_insert_ne.
Qed.

(** The last word on a path is the data planned for it. *)
Lemma write_all_lookup writes m p data :
  In (p, data) writes ->
  (forall data', In (p, data') writes -> data' = data) ->
  write_all writes m !! p = Some data.
Proof.
  revert m. induction writes as [|[p' d'] writes IH]; intros m Hin Hfun; [done|].
  cbn [write_all fold_left fst snd]. destruct Hin as [[= -> ->]|Hin].
  - apply write_all_keeps; [|apply lookup_insert_eq].
    intros data' Hin'. apply Hfun. now right.
  - apply IH; [exact Hin|]. intros data' Hin'. apply Hfun. now right.
Qed.

Lemma in_planned_writes componentDir camelCaseName pascalCaseName fileOptions p data :
  In (p, data) (planned_writes componentDir camelCaseName pascalCaseName fileOptions)
  <-> exists file,
        In file fileOptions /\
        template_for pascalCaseName file = Some data /\
        p = target_path componentDir camelCaseName file.
Proof.
  unfold planned_writes. rewrite in_flat_map. split.
  - intros (file & Hfile & Hin). exists file. split; [exact Hfile|].
    destruct (template_for pascalCaseName file) as [d|]; [|done].
    destruct Hin as [[= <- <-]|[]]. now split.
  - intros (file & Hfile & Ht & ->). exists file. split; [exact Hfile|].
    rewrite Ht. now left.
Qed.

(** Two selected items that share a target share a template. *)
Lemma template_for_target componentDir camelCaseName pascalCaseName file file' d d' :
  (forall a b, path_join componentDir a = path_join componentDir b -> a = b) ->
  template_for pascalCaseName file = Some d ->
  template_for pascalCaseName file' = Some d' ->
  target_path componentDir camelCaseName file
  = target_path componentDir camelCaseName file' ->
  d = d'.
Proof.
  intros Hinj Hd Hd' Hp. unfold target_path in Hp. apply Hinj in Hp.
  apply app_inv_head in Hp. apply app_inv_head in Hp.
  unfold template_for in Hd, Hd'.
  repeat case_bool_decide; try discriminate;
    repeat match goal with E : label _ = lit _ |- _ => rewrite E in Hp; clear E end;
    try discriminate Hp; congruence.
Qed.

Lemma notifications_writes cs (writes : list (jsstring * jsstring)) :
  notifications (cs ++ map (fun pd => FsWriteFile pd.1 pd.2) writes)
  = notifications cs.
Proof.
  unfold notifications. rewrite filter_app.
  induction writes as [|pd writes IH]; [apply app_nil_r|].
  cbn [map]. now rewrite filter_cons_False.
Qed.

(** On a file system that raises no error the writes all succeed. *)
Lemma forEach_write_file_ok componentDir camelCaseName pascalCaseName fileOptions
    ds fl cs :
  (forall f c, fs_fault f c = None) ->
  (forall file, In file fileOptions ->
                target_path componentDir camelCaseName file ∉ ds) ->
  forEach fileOptions (write_file componentDir camelCaseName pascalCaseName)
    {| fs := {| dirs := ds; files := fl |}; calls := cs |}
  = (Normal tt,
     {| fs := {| dirs := ds;
                 files := write_all
                            (planned_writes componentDir camelCaseName
                               pascalCaseName fileOptions) fl |};
        calls := cs ++ map (fun pd => FsWriteFile pd.1 pd.2)
                         (planned_writes componentDir camelCaseName
                            pascalCaseName fileOptions) |}).
Proof.
  intros Hnf. revert fl cs.
  induction fileOptions as [|file fileOptions IH]; intros fl cs Hnd.
  - cbn. now rewrite app_nil_r.
  - cbn [forEach]. unfold bind. rewrite write_file_template.
    unfold planned_writes. cbn [flat_map]. fold (planned_writes componentDir
      camelCaseName pascalCaseName fileOptions).
    destruct (template_for pascalCaseName file) as [data|].
    + unfold writeFileSync. cbv zeta. rewrite Hnf. cbn [fs dirs files calls log_call].
      rewrite bool_decide_eq_false_2 by (apply Hnd; now left).
      unfold fs_write. cbn [dirs files].
      rewrite IH by (intros file' Hin; apply Hnd; now right).
      cbn [app map fst snd write_all fold_left]. now rewrite <- app_assoc.
    + unfold ret. rewrite IH by (intros file' Hin; apply Hnd; now right).
      reflexivity.
Qed.

(** A path that no write names keeps its file. *)
Lemma write_all_other writes m p :
  ~ In p (map fst writes) -> write_all writes m !! p = m !! p.
Proof.
  revert m. induction writes as [|[p' d'] writes IH]; intros m Hp; [reflexivity|].
  cbn [write_all fold_left fst snd]. cbn [map fst In] in Hp.
  rewrite IH by tauto. apply lookup_insert_ne. tauto.
Qed.

(** A path that some write names ends with the data of one of its writes. *)
Lemma write_all_lookup_planned writes m p data :
  In (p, data) writes ->
  exists data', In (p, data') writes /\ write_all writes m !! p = Some data'.
Proof.
  revert m data. induction writes as [|[p' d'] writes IH]; intros m data Hin; [done|].
  cbn [write_all fold_left fst snd].
  destruct (in_dec (fun x y : jsstring => decide (x = y)) p (map fst writes))
    as [Hlater|Hlast].
  - apply in_map_iff in Hlater as ([p1 d1] & Hp1 & Hin1). cbn [fst] in Hp1. subst p1.
    destruct (IH (<[p':=d']> m) d1 Hin1) as (data' & Hin' & Hlook).
    exists data'. split; [now right | exact Hlook].
  - destruct Hin as [[= -> ->]|Hin].
    + exists data. split; [now left|].
      rewrite (write_all_other _ _ _ Hlast). apply lookup_insert_eq.
    + exfalso. apply Hlast. apply in_map_iff. now exists (p, data).
Qed.

(** The writes all succeed when none of them is refused: each planned write,
    on the file system that the writes before it have made, raises no error
    and does not name a directory. *)
Lemma forEach_write_file_ok_local componentDir camelCaseName pascalCaseName
    fileOptions ds fl cs :
  (forall done p data rest,
      planned_writes componentDir camelCaseName pascalCaseName fileOptions
      = done ++ (p, data) :: rest ->
      fs_fault {| dirs := ds; files := write_all done fl |} (WriteFile p data) = None) ->
  (forall p data,
      In (p, data)
        (planned_writes componentDir camelCaseName pascalCaseName fileOptions) ->
      p ∉ ds) ->
  forEach fileOptions (write_file componentDir camelCaseName pascalCaseName)
    {| fs := {| dirs := ds; files := fl |}; calls := cs |}
  = (Normal tt,
     {| fs := {| dirs := ds;
                 files := write_all
                            (planned_writes componentDir camelCaseName
                               pascalCaseName fileOptions) fl |};
        calls := cs ++ map (fun pd => FsWriteFile pd.1 pd.2)
                         (planned_writes componentDir camelCaseName
                            pascalCaseName fileOptions) |}).
Proof.
  revert fl cs.
  induction fileOptions as [|file fileOptions IH]; intros fl cs Hok Hnd.
  - cbn. now rewrite app_nil_r.
  - cbn [forEach]. unfold bind. rewrite write_file_template.
    unfold planned_writes in *. cbn [flat_map] in *.
    fold (planned_writes componentDir camelCaseName pascalCaseName fileOptions) in *.
    destruct (template_for pascalCaseName file) as [data|].
    + unfold writeFileSync. cbv zeta. cbn [fs dirs files calls log_call].
      pose proof (Hok [] _ _ _ eq_refl) as Hfirst.
      cbn [write_all fold_left] in Hfirst. rewrite Hfirst.
      rewrite bool_decide_eq_false_2 by (apply (Hnd _ data); now left).
      unfold fs_write. cbn [dirs files].
      rewrite IH.
      * cbn [app map fst snd write_all fold_left]. now rewrite <- app_assoc.
      * intros done p d rest Hsplit.
        apply (Hok ((target_path componentDir camelCaseName file, data) :: done)
                 p d rest).
        cbn [app]. now rewrite Hsplit.
      * intros p d Hin. apply (Hnd p d). now right.
    + unfold ret. cbn [app] in *. now rewrite IH.
Qed.

End Overwrite.

(** C10. When the component directory exists, the handler never calls
    [mkdirSync], whatever the file system does.  When, besides, none of the
    planned writes is refused (each raises no error on the file system that
    the writes before it have made, and none names a directory), the run
    ends with the success message as its only notification, the directories
    are as before, and the files are the old ones with the planned writes
    applied: the target of every selected item holds the template of an item
    selected for that path, whatever file was there before, and it holds the
    item's own template when the items selected for that path share it. *)
Theorem existing_component_reused_and_overwritten `{JsEngine} `{NodeHost}
    (inv : Invocation) (f : FileSystem) (targetDir rawName : jsstring)
    (n : NormalizedName) (fileOptions : list QuickPickItem) :
  resolve_targetDir inv = Some targetDir ->
  inputBox_answer inv = Normal (Some rawName) ->
  normalizeComponentName rawName = Normal n ->
  quickPick_answer inv = Normal (Some fileOptions) ->
  fileOptions <> [] ->
  let componentDir := path_join targetDir (camelCase n) in
  let writes :=
    planned_writes componentDir (camelCase n) (pascalCase n) fileOptions in
  componentDir ∈ dirs f ->
  (exists w',
      createLWC inv (start f) = (Normal tt, w') /\ mkdir_calls (calls w') = [])
  /\ ((forall done p data rest,
          writes = done ++ (p, data) :: rest ->
          fs_fault {| dirs := dirs f; files := write_all done (files f) |}
            (WriteFile p data) = None) ->
      (forall p data, In (p, data) writes -> p ∉ dirs f) ->
      exists w',
        createLWC inv (start f) = (Normal tt, w') /\
        notifications (calls w')
        = [ShowInformationMessage (success_message (camelCase n) componentDir)] /\
        dirs (fs w') = dirs f /\
        files (fs w') = write_all writes (files f) /\
        forall file data,
          In file fileOptions ->
          template_for (pascalCase n) file = Some data ->
          (exists data',
              In (target_path componentDir (camelCase n) file, data') writes /\
              files (fs w') !! target_path componentDir (camelCase n) file
              = Some data')
          /\ ((forall file' data',
                  In file' fileOptions ->
                  template_for (pascalCase n) file' = Some data' ->
                  target_path componentDir (camelCase n) file'
                  = target_path componentDir (camelCase n) file ->
                  data' = data) ->
              files (fs w') !! target_path componentDir (camelCase n) file
              = Some data)).
Proof.
  intros Ht Hi Hn Hq Hne componentDir writes Hdir.
  assert (createLWC_body inv (start f)
          = create_files targetDir (camelCase n) (pascalCase n) fileOptions
              (log_call (ShowQuickPick fileOption_items)
                 (log_call ShowInputBox (start f)))) as Hbody
    by now apply (createLWC_body_confirmed _ _ _ rawName).
  rewrite createLWC_unfold, Hbody, create_files_unfold.
  cbv zeta. fold componentDir. cbn [fs log_call start calls].
  rewrite (fs_exists_dir _ _ Hdir). split.
  - pose proof (forEach_write_file_mkdir_calls componentDir (camelCase n)
                  (pascalCase n) fileOptions
                  {| fs := f; calls := ([] ++ [ShowInputBox])
                                         ++ [ShowQuickPick fileOption_items] |})
      as Hmk.
    destruct (forEach fileOptions _ _) as [[[]|e] w2]; cbn [snd] in Hmk;
      (eexists; split; [reflexivity|]);
      cbn [calls log_call]; rewrite mkdir_calls_snoc, Hmk; reflexivity.
  - intros Hok Hnd. destruct f as [ds fl]. cbn [dirs files] in *.
    unfold log_call, start. cbn [fs calls].
    rewrite (forEach_write_file_ok_local _ _ _ _ _ _ _ Hok Hnd).
    eexists. split; [reflexivity|]. cbn [fs calls dirs files log_call].
    fold writes.
    split; [|split; [reflexivity|split; [reflexivity|]]].
    + rewrite notifications_snoc, notifications_writes. reflexivity.
    + intros file data Hfile Hdata.
      assert (In (target_path componentDir (camelCase n) file, data) writes) as Hin
        by (apply in_planned_writes; now exists file).
      split; [now apply (write_all_lookup_planned _ _ _ data)|].
      intros Hsame. apply write_all_lookup; [exact Hin|].
      intros data' Hin'. apply in_planned_writes in Hin'
        as (file' & Hfile' & Hdata' & Hp).
      now apply (Hsame file' data').
Qed.

Lemma existing_component_reused_and_overwritten_witness :
  files existing_component !! lit "/ws/lwc/myComponent/myComponent.html"
  = Some (lit "<template>old</template>")
  /\ exists w',
       @createLWC ascii_engine posix_host
         (invocation (Some (lit "my-component"))
            (Some [item "JS" true; item "HTML" true]))
         (start existing_component) = (Normal tt, w') /\
       mkdir_calls (calls w') = [] /\
       notifications (calls w')
       = [ShowInformationMessage
            (lit "LWC component 'myComponent' created in '/ws/lwc/myComponent'.")] /\
       dirs (fs w') = dirs existing_component /\
       files (fs w') !! lit "/ws/lwc/myComponent/myComponent.html"
       = Some (lit "<template>" ++ [newline; newline] ++ lit "</template>") /\
       files (fs w') !! lit "/ws/lwc/myComponent/myComponent.js"
       = Some (lit "import { LightningElement } from 'lwc';" ++ [newline; newline]
                 ++ lit "export default class MyComponent extends LightningElement {}").
Proof.
  split; [reflexivity|].
  destruct (@existing_component_reused_and_overwritten ascii_engine posix_host
              (invocation (Some (lit "my-component"))
                 (Some [item "JS" true; item "HTML" true]))
              existing_component (lit "/ws/lwc") (lit "my-component")
              {| camelCase := lit "myComponent"; pascalCase := lit "MyComponent" |}
              [item "JS" true; item "HTML" true]
              eq_refl eq_refl eq_refl eq_refl ltac:(discriminate)
              ltac:(apply (bool_decide_eq_true_1 _); vm_compute; reflexivity))
    as [(w0 & Hrun0 & Hmk) Hok].
  destruct Hok as (w' & Hrun & Hnote & Hdirs & _ & Hfiles).
  - reflexivity.
  - intros p data [[= <- <-]|[[= <- <-]|[]]];
      apply (bool_decide_eq_false_1 _); vm_compute; reflexivity.
  - exists w'. split; [exact Hrun|].
    assert (w0 = w') as -> by congruence.
    split; [exact Hmk|]. split; [exact Hnote|]. split; [exact Hdirs|].
    assert (forall a b : jsstring,
               @path_join posix_host (lit "/ws/lwc/myComponent") a
               = @path_join posix_host (lit "/ws/lwc/myComponent") b -> a = b)
      as Hinj
      by (intros a b Hab; apply app_inv_head in Hab; now apply app_inv_head in Hab).
    split.
    + apply (proj2 (Hfiles (item "HTML" true) _
                      (or_intror (or_introl eq_refl)) eq_refl)).
      intros file' data' Hfile' Hdata' Hp.
      exact (@template_for_target ascii_engine posix_host
               (lit "/ws/lwc/myComponent") (lit "myComponent") (lit "MyComponent")
               file' (item "HTML" true) data' _ Hinj Hdata' eq_refl Hp).
    + apply (proj2 (Hfiles (item "JS" true) _ (or_introl eq_refl) eq_refl)).
      intros file' data' Hfile' Hdata' Hp.
      exact (@template_for_target ascii_engine posix_host
               (lit "/ws/lwc/myComponent") (lit "myComponent") (lit "MyComponent")
               file' (item "JS" true) data' _ Hinj Hdata' eq_refl Hp).
Defined.

(** ** More on the name normaliser *)

Section NormaliserFacts.
Context `{JsEngine}.

Lemma is_upper_not_lower c : is_upper c = true -> is_lower c = false.
Proof.
  intros Hu. destruct (is_lower c) eqn:E; [|done].
  apply is_lower_not_upper in E. congruence.
Qed.

Lemma has_kebab_pair_cons c d s :
  has_kebab_pair (c :: d :: s)
  = ((c =? hyphen) && is_lower d) || has_kebab_pair (d :: s).
Proof. reflexivity. Qed.

Lemma has_kebab_pair_copy c s :
  (c =? hyphen) = false -> has_kebab_pair (c :: s) = has_kebab_pair s.
Proof.
  intros Hc. destruct s as [|d s]; [reflexivity|].
  now rewrite has_kebab_pair_cons, Hc.
Qed.

Lemma replace_kebab_step c d s :
  (c =? hyphen) && is_lower d = false ->
  replace_kebab (c :: d :: s) = c :: replace_kebab (d :: s).
Proof. intros E. simpl. now rewrite E. Qed.

(** After a unit that is not [[a-z]] the scan does not begin with [[a-z]]. *)
Lemma replace_kebab_head_not_lower d s :
  is_lower d = false ->
  forall x rest, replace_kebab (d :: s) = x :: rest -> is_lower x = false.
Proof.
  intros Hd x rest. destruct s as [|e s].
  - now intros [= <- <-].
  - destruct ((d =? hyphen) && is_lower e) eqn:E.
    + apply andb_true_iff in E as [Ed Ee]. apply N.eqb_eq in Ed. subst d.
      rewrite replace_kebab_collapse by done. intros [= <- <-].
      apply is_upper_not_lower. now apply upper_of_lower_is_upper.
    + rewrite replace_kebab_step by done. now intros [= <- <-].
Qed.

(** The scan leaves no hyphen before a lowercase letter. *)
Lemma replace_kebab_no_pair_left s : has_kebab_pair (replace_kebab s) = false.
Proof.
  induction s as [|c|c d s IH1 IH2] using jsstring_pair_ind; [reflexivity..|].
  destruct ((c =? hyphen) && is_lower d) eqn:E.
  - apply andb_true_iff in E as [Ec Ed]. apply N.eqb_eq in Ec. subst c.
    rewrite replace_kebab_collapse by done.
    rewrite has_kebab_pair_copy; [exact IH1|].
    apply is_upper_not_hyphen. now apply upper_of_lower_is_upper.
  - rewrite replace_kebab_step by done.
    destruct (replace_kebab (d :: s)) as [|x rest] eqn:Ex; [reflexivity|].
    rewrite has_kebab_pair_cons, IH2, orb_false_r.
    destruct (c =? hyphen) eqn:Ec; [|reflexivity].
    cbn [andb] in E |- *. apply (replace_kebab_head_not_lower d s E x rest Ex).
Qed.

Lemma replace_leading_upper_no_pair s :
  has_kebab_pair s = false -> has_kebab_pair (replace_leading_upper s) = false.
Proof.
  destruct s as [|c s]; [done|]. unfold replace_leading_upper.
  destruct (is_upper c) eqn:Hu; [|done].
  rewrite toLowerCase_unit, lower_unit_upper by done. cbn [app].
  rewrite has_kebab_pair_copy by now apply is_upper_not_hyphen.
  intros Hs. rewrite has_kebab_pair_copy; [exact Hs|].
  apply is_lower_not_hyphen. now apply lower_of_upper_is_lower.
Qed.

Lemma replace_leading_upper_idempotent s :
  replace_leading_upper (replace_leading_upper s) = replace_leading_upper s.
Proof.
  destruct s as [|c s]; [reflexivity|].
  destruct (is_upper c) eqn:Hu.
  - assert (replace_leading_upper (c :: s) = (c + 32) :: s) as ->.
    { unfold replace_leading_upper.
      now rewrite Hu, toLowerCase_unit, lower_unit_upper. }
    unfold replace_leading_upper.
    now rewrite (is_lower_not_upper _ (lower_of_upper_is_lower c Hu)).
  - assert (replace_leading_upper (c :: s) = c :: s) as ->
      by (unfold replace_leading_upper; now rewrite Hu).
    unfold replace_leading_upper. now rewrite Hu.
Qed.

Lemma name_units_replace_kebab s :
  forallb is_name_unit s = true -> forallb is_name_unit (replace_kebab s) = true.
Proof.
  induction s as [|c|c d s IH1 IH2] using jsstring_pair_ind; [done..|].
  intros Hs. destruct ((c =? hyphen) && is_lower d) eqn:E.
  - apply andb_true_iff in E as [Ec Ed]. apply N.eqb_eq in Ec. subst c.
    rewrite replace_kebab_collapse by done.
    cbn [forallb] in Hs |- *. apply andb_true_iff in Hs as [_ Hs].
    apply andb_true_iff in Hs as [_ Hs]. rewrite (IH1 Hs), andb_true_r.
    unfold is_name_unit, is_letter.
    now rewrite (upper_of_lower_is_upper d Ed), orb_true_r.
  - rewrite replace_kebab_step by done.
    change (forallb is_name_unit (c :: d :: s))
      with (is_name_unit c && forallb is_name_unit (d :: s)) in Hs.
    apply andb_true_iff in Hs as [Hc Hs].
    change (forallb is_name_unit (c :: replace_kebab (d :: s)))
      with (is_name_unit c && forallb is_name_unit (replace_kebab (d :: s))).
    now rewrite Hc, (IH2 Hs).
Qed.

(** A hyphen survives the scan exactly when it is not followed by [[a-z]]. *)
Lemma hyphen_in_replace_kebab s :
  In hyphen (replace_kebab s) <->
  exists p t, s = p ++ hyphen :: t /\ forall d t', t = d :: t' -> is_lower d = false.
Proof.
  split.
  - induction s as [|c|c d s IH1 IH2] using jsstring_pair_ind.
    + intros [].
    + intros [->|[]]. exists [], []. split; [reflexivity | discriminate].
    + destruct ((c =? hyphen) && is_lower d) eqn:E.
      * apply andb_true_iff in E as [Ec Ed]. apply N.eqb_eq in Ec. subst c.
        rewrite replace_kebab_collapse by done. intros [Hx|Hin].
        -- pose proof (is_upper_not_hyphen _ (upper_of_lower_is_upper d Ed)) as Hh.
           rewrite Hx in Hh. discriminate Hh.
        -- destruct (IH1 Hin) as (p & t & -> & Ht).
           now exists (hyphen :: d :: p), t.
      * rewrite replace_kebab_step by done. intros [->|Hin].
        -- exists [], (d :: s). split; [reflexivity|].
           intros d' t' [= <- <-]. exact E.
        -- destruct (IH2 Hin) as (p & t & Hs & Ht).
           exists (c :: p), t. split; [|exact Ht].
           cbn [app]. now rewrite <- Hs.
  - intros (p & t & -> & Ht). rewrite replace_kebab_app_hyphen.
    apply in_or_app. right. destruct t as [|d t']; [now left|].
    rewrite replace_kebab_keep by now apply (Ht d t'). now left.
Qed.

Lemma hyphen_in_replace_leading_upper s :
  In hyphen (replace_leading_upper s) <-> In hyphen s.
Proof.
  destruct s as [|c s]; [reflexivity|]. unfold replace_leading_upper.
  destruct (is_upper c) eqn:Hu; [|reflexivity].
  rewrite toLowerCase_unit, lower_unit_upper by done. cbn [app In].
  pose proof (is_upper_not_hyphen c Hu) as H1.
  pose proof (is_lower_not_hyphen _ (lower_of_upper_is_lower c Hu)) as H2.
  apply N.eqb_neq in H1, H2. split; (intros [Hx|Hin]; [congruence | now right]).
Qed.

Lemma length_replace_kebab s :
  (length (replace_kebab s) <= length s)%nat /\
  (length (replace_kebab s) = length s <-> has_kebab_pair s = false).
Proof.
  induction s as [|c|c d s IH1 IH2] using jsstring_pair_ind; [done..|].
  destruct ((c =? hyphen) && is_lower d) eqn:E.
  - pose proof E as E'. apply andb_true_iff in E' as [Ec Ed].
    apply N.eqb_eq in Ec. subst c.
    rewrite replace_kebab_collapse, has_kebab_pair_cons, E by done.
    cbn [length orb]. destruct IH1 as [IH1 _]. split; [lia|].
    split; [lia | discriminate].
  - rewrite replace_kebab_step, has_kebab_pair_cons, E by done.
    cbn [orb]. destruct IH2 as [Hle Hiff].
    change (length (c :: replace_kebab (d :: s)))
      with (S (length (replace_kebab (d :: s)))).
    change (length (c :: d :: s)) with (S (length (d :: s))).
    split; [lia|]. rewrite <- Hiff. lia.
Qed.

Lemma length_replace_leading_upper s :
  length (replace_leading_upper s) = length s.
Proof.
  destruct s as [|c s]; [reflexivity|]. unfold replace_leading_upper.
  destruct (is_upper c) eqn:Hu; [|reflexivity].
  now rewrite toLowerCase_unit, lower_unit_upper.
Qed.

End NormaliserFacts.

Lemma validateInput_accepts value :
  validateInput value = None <-> validNameRegex_test value = true.
Proof. unfold validateInput. destruct (validNameRegex_test value); split; done. Qed.

(** X1. Normalising is idempotent: the camelCase of a name normalises to the
    same pair of results, for it holds no hyphen before a lowercase letter
    and does not begin with an uppercase letter. *)
Theorem normalizeComponentName_idempotent `{JsEngine}
    (name : jsstring) (r : NormalizedName) :
  normalizeComponentName name = Normal r ->
  normalizeComponentName (camelCase r) = Normal r
  /\ has_kebab_pair (camelCase r) = false
  /\ (forall c rest, camelCase r = c :: rest -> is_upper c = false).
Proof.
  intros Hn.
  destruct (normalizeComponentName_Normal_inv _ _ Hn) as (c & rest & Hcamel & ->).
  cbn [camelCase].
  assert (has_kebab_pair (c :: rest) = false) as Hpair.
  { rewrite <- Hcamel. apply replace_leading_upper_no_pair, replace_kebab_no_pair_left. }
  assert (replace_leading_upper (c :: rest) = c :: rest) as Hlead
    by (rewrite <- Hcamel; apply replace_leading_upper_idempotent).
  split; [|split; [exact Hpair|]].
  - apply normalizeComponentName_camel.
    now rewrite (replace_kebab_no_pair _ Hpair).
  - intros c' rest' [= <- <-]. unfold replace_leading_upper in Hlead.
    destruct (is_upper c) eqn:Hu; [|reflexivity].
    rewrite toLowerCase_unit, lower_unit_upper in Hlead by done.
    injection Hlead as Hc. lia.
Qed.

Lemma normalizeComponentName_idempotent_witness :
  @normalizeComponentName ascii_engine (lit "myComponent")
  = Normal {| camelCase := lit "myComponent"; pascalCase := lit "MyComponent" |}.
Proof.
  exact (proj1 (@normalizeComponentName_idempotent ascii_engine
                  (lit "my-component")
                  {| camelCase := lit "myComponent"; pascalCase := lit "MyComponent" |}
                  eq_refl)).
Defined.

(** X2. For a name that the input box accepts, the pascalCase normalises to
    the same pair of results as the name: typing the name in PascalCase or in
    the form it was given makes the same component. *)
Theorem normalizeComponentName_of_pascalCase `{JsEngine}
    (name : jsstring) (r : NormalizedName) :
  validateInput name = None ->
  normalizeComponentName name = Normal r ->
  normalizeComponentName (pascalCase r) = Normal r.
Proof.
  intros Hv Hn. apply validateInput_accepts in Hv.
  destruct name as [|n0 tl]; [discriminate|].
  destruct (camelCase_of_valid _ _ Hv) as [Hhead Hlower].
  rewrite (normalizeComponentName_camel _ _ _ Hhead) in Hn. injection Hn as <-.
  set (c := if is_upper n0 then n0 + 32 else n0) in *.
  assert (toUpperCase [c] = [c - 32]) as Hup
    by now rewrite toUpperCase_unit, upper_unit_lower.
  pose proof (upper_of_lower_is_upper c Hlower) as Hu.
  cbn [pascalCase].
  change ((upper_unit c ++ []) ++ replace_kebab tl)
    with (toUpperCase [c] ++ replace_kebab tl).
  rewrite (normalizeComponentName_camel (toUpperCase [c] ++ replace_kebab tl)
             c (replace_kebab tl)); [reflexivity|].
  rewrite Hup. cbn [app].
  rewrite replace_kebab_copy by now apply is_upper_not_hyphen.
  rewrite (replace_kebab_no_pair _ (replace_kebab_no_pair_left tl)).
  unfold replace_leading_upper. rewrite Hu, toLowerCase_unit, lower_unit_upper by done.
  cbn [app]. f_equal. apply is_lower_bounds in Hlower. lia.
Qed.

Lemma normalizeComponentName_of_pascalCase_witness :
  @normalizeComponentName ascii_engine (lit "MyComponent")
  = Normal {| camelCase := lit "myComponent"; pascalCase := lit "MyComponent" |}.
Proof.
  exact (@normalizeComponentName_of_pascalCase ascii_engine
           (lit "my-component")
           {| camelCase := lit "myComponent"; pascalCase := lit "MyComponent" |}
           eq_refl eq_refl).
Defined.

(** X3. A name that the input box accepts normalises, and both results are
    names that the input box accepts: a letter followed by letters, digits
    and hyphens only. *)
Theorem validated_name_stays_valid `{JsEngine} (name : jsstring) :
  validateInput name = None ->
  exists r,
    normalizeComponentName name = Normal r /\
    validateInput (camelCase r) = None /\
    validateInput (pascalCase r) = None.
Proof.
  intros Hv. apply validateInput_accepts in Hv.
  destruct name as [|n0 tl]; [discriminate|].
  destruct (camelCase_of_valid _ _ Hv) as [Hhead Hlower].
  eexists. split; [apply (normalizeComponentName_camel _ _ _ Hhead)|].
  set (c := if is_upper n0 then n0 + 32 else n0) in *.
  unfold validNameRegex_test in Hv. apply andb_true_iff in Hv as [_ Htl].
  pose proof (name_units_replace_kebab _ Htl) as Hrest.
  cbn [camelCase pascalCase]. rewrite toUpperCase_unit, upper_unit_lower by done.
  split; apply validateInput_accepts; cbn [app validNameRegex_test];
    rewrite Hrest, andb_true_r; unfold is_letter.
  - now rewrite Hlower.
  - now rewrite (upper_of_lower_is_upper c Hlower), orb_true_r.
Qed.

Lemma validated_name_stays_valid_witness :
  exists r,
    @normalizeComponentName ascii_engine (lit "my-2nd-Component") = Normal r /\
    validateInput (camelCase r) = None /\
    validateInput (pascalCase r) = None.
Proof.
  apply (@validated_name_stays_valid ascii_engine (lit "my-2nd-Component")).
  reflexivity.
Defined.

(** X4. A hyphen is left in camelCase exactly when the name holds a hyphen
    that is not followed by a lowercase letter: a hyphen at the end, or
    before a digit, an uppercase letter or another hyphen. *)
Theorem hyphen_left_iff_not_before_lowercase `{JsEngine}
    (name : jsstring) (r : NormalizedName) :
  normalizeComponentName name = Normal r ->
  (In hyphen (camelCase r) <->
   exists p t,
     name = p ++ hyphen :: t /\ forall d t', t = d :: t' -> is_lower d = false).
Proof.
  intros Hn.
  destruct (normalizeComponentName_Normal_inv _ _ Hn) as (c & rest & Hcamel & ->).
  cbn [camelCase]. rewrite <- Hcamel, hyphen_in_replace_leading_upper.
  apply hyphen_in_replace_kebab.
Qed.

Lemma hyphen_left_iff_not_before_lowercase_witness :
  In hyphen (lit "my-2nd") /\ ~ In hyphen (lit "myComponent").
Proof.
  split.
  - apply (proj2 (@hyphen_left_iff_not_before_lowercase ascii_engine
                    (lit "my-2nd")
                    {| camelCase := lit "my-2nd"; pascalCase := lit "My-2nd" |}
                    eq_refl)).
    exists (lit "my"), (lit "2nd"). split; [reflexivity|].
    now intros d t' [= <- <-].
  - intros Hin.
    apply (proj1 (@hyphen_left_iff_not_before_lowercase ascii_engine
                    (lit "my-component")
                    {| camelCase := lit "myComponent"; pascalCase := lit "MyComponent" |}
                    eq_refl)) in Hin.
    destruct Hin as (p & t & Hname & Ht).
    assert (p = lit "my" /\ t = lit "component") as [-> ->].
    { vm_compute in Hname.
      repeat (destruct p as [|? p]; [injection Hname; intros; subst; try discriminate;
                                     try (split; reflexivity)
                                    | injection Hname as <- Hname]);
        try discriminate Hname.
      destruct p; discriminate Hname. }
    now specialize (Ht _ _ eq_refl).
Defined.

(** X5. camelCase is never longer than the name, and it is as long as the
    name exactly when the name holds no hyphen before a lowercase letter. *)
Theorem camelCase_length `{JsEngine} (name : jsstring) (r : NormalizedName) :
  normalizeComponentName name = Normal r ->
  (length (camelCase r) <= length name)%nat /\
  (length (camelCase r) = length name <-> has_kebab_pair name = false).
Proof.
  intros Hn.
  destruct (normalizeComponentName_Normal_inv _ _ Hn) as (c & rest & Hcamel & ->).
  cbn [camelCase]. rewrite <- Hcamel, length_replace_leading_upper.
  apply length_replace_kebab.
Qed.

Lemma camelCase_length_witness :
  (length (lit "myComponent") <= length (lit "my-component"))%nat /\
  (length (lit "myComponent") = length (lit "my-component")
   <-> has_kebab_pair (lit "my-component") = false).
Proof.
  exact (@camelCase_length ascii_engine (lit "my-component")
           {| camelCase := lit "myComponent"; pascalCase := lit "MyComponent" |}
           eq_refl).
Defined.

(** ** More on the runs of the command handler *)

Section RunFacts.
Context `{JsEngine} `{NodeHost}.

Lemma written_files_app cs cs' :
  written_files (cs ++ cs') = written_files cs ++ written_files cs'.
Proof. unfold written_files. apply flat_map_app. Qed.

Lemma written_files_snoc cs c :
  written_files (cs ++ [c])
  = written_files cs ++ match c with FsWriteFile p data => [(p, data)] | _ => [] end.
Proof. rewrite written_files_app. cbn. now rewrite app_nil_r. Qed.

Lemma written_files_writes (writes : list (jsstring * jsstring)) :
  written_files (map (fun pd => FsWriteFile pd.1 pd.2) writes) = writes.
Proof.
  induction writes as [|[p d] writes IH]; [reflexivity|].
  cbn [map fst snd]. change (written_files (FsWriteFile p d :: ?l))
    with ((p, d) :: written_files l). now rewrite IH.
Qed.

Lemma mkdir_calls_writes cs (writes : list (jsstring * jsstring)) :
  mkdir_calls (cs ++ map (fun pd => FsWriteFile pd.1 pd.2) writes) = mkdir_calls cs.
Proof.
  unfold mkdir_calls. rewrite flat_map_app.
  induction writes as [|pd writes IH]; [apply app_nil_r | exact IH].
Qed.

(** The log of the writes of a selection: an initial part of the plan, and
    the whole plan when no write throws. *)
Lemma forEach_write_file_log componentDir camelCaseName pascalCaseName fileOptions w :
  exists done,
    calls (forEach fileOptions
             (write_file componentDir camelCaseName pascalCaseName) w).2
    = calls w ++ map (fun pd => FsWriteFile pd.1 pd.2) done /\
    done `prefix_of`
      planned_writes componentDir camelCaseName pascalCaseName fileOptions /\
    (forall u,
        (forEach fileOptions
           (write_file componentDir camelCaseName pascalCaseName) w).1 = Normal u ->
        done = planned_writes componentDir camelCaseName pascalCaseName fileOptions).
Proof.
  revert w. induction fileOptions as [|file fileOptions IH]; intros w.
  - exists []. cbn. rewrite app_nil_r. now repeat split.
  - cbn [forEach]. unfold bind. rewrite write_file_template.
    unfold planned_writes. cbn [flat_map].
    fold (planned_writes componentDir camelCaseName pascalCaseName fileOptions).
    destruct (template_for pascalCaseName file) as [data|].
    + set (p := target_path componentDir camelCaseName file).
      assert ((exists e, writeFileSync p data w
                         = (Throw e, log_call (FsWriteFile p data) w))
              \/ writeFileSync p data w
                 = (Normal tt, {| fs := fs_write (fs w) p data;
                                  calls := calls w ++ [FsWriteFile p data] |}))
        as [[e ->]| ->].
      { unfold writeFileSync. cbv zeta.
        destruct (fs_fault (fs w) (WriteFile p data)); [left; eauto|].
        destruct (bool_decide (p ∈ dirs (fs w))); [left; eauto | now right]. }
      * exists [(p, data)]. cbn [fst snd calls log_call map].
        split; [reflexivity|]. split; [|discriminate].
        now exists (planned_writes componentDir camelCaseName pascalCaseName fileOptions).
      * destruct (IH {| fs := fs_write (fs w) p data;
                        calls := calls w ++ [FsWriteFile p data] |})
          as (done & Hcalls & Hprefix & Hall).
        exists ((p, data) :: done). cbn [app]. split; [|split].
        -- rewrite Hcalls. cbn [calls map fst snd]. now rewrite <- app_assoc.
        -- now apply prefix_cons.
        -- intros u Hu. f_equal. now apply (Hall u).
    + unfold ret. cbn [app]. apply IH.
Qed.

(** ** Invariant: the file system changes only where the log says *)

Lemma unchanged_start f : unchanged_outside_log f (start f).
Proof. repeat split; auto. Qed.

Lemma unchanged_log f c w :
  unchanged_outside_log f w -> unchanged_outside_log f (log_call c w).
Proof.
  intros (Hfiles & Hdirs & Hsub & Hsome). repeat split; cbn [fs calls log_call]; auto.
  - intros p Hp. apply Hfiles. intros Hin. apply Hp.
    rewrite written_files_snoc, map_app. apply in_or_app. now left.
  - intros p Hp. destruct (Hdirs p Hp) as [Hd|Hin]; [now left|]. right.
    rewrite mkdir_calls_snoc. apply in_or_app. now left.
Qed.

Lemma keeps_ret {A} P (a : A) : keeps P (ret a).
Proof. now intros w Hw. Qed.

Lemma keeps_lift {A} P (c : Completion A) : keeps P (lift c).
Proof. now intros w Hw. Qed.

Lemma keeps_bind {A B} P (m : M A) (k : A -> M B) :
  keeps P m -> (forall a, keeps P (k a)) -> keeps P (bind m k).
Proof.
  intros Hm Hk w Hw. unfold bind. specialize (Hm w Hw).
  destruct (m w) as [[a|e] w']; [apply (Hk a w' Hm) | exact Hm].
Qed.

Lemma keeps_try_catch {A} P (m : M A) (h : JsValue -> M A) :
  keeps P m -> (forall e, keeps P (h e)) -> keeps P (try_catch m h).
Proof.
  intros Hm Hh w Hw. unfold try_catch. specialize (Hm w Hw).
  destruct (m w) as [[a|e] w']; [exact Hm | apply (Hh e w' Hm)].
Qed.

Lemma keeps_forEach {A} P (l : list A) (g : A -> M unit) :
  (forall x, keeps P (g x)) -> keeps P (forEach l g).
Proof.
  intros Hg. induction l as [|x l IH]; [apply keeps_ret|].
  apply keeps_bind; [apply Hg | intros _; exact IH].
Qed.

Lemma keeps_call f c : keeps (unchanged_outside_log f) (call c).
Proof. intros w Hw. now apply unchanged_log. Qed.

Lemma keeps_existsSync P p : keeps P (existsSync p).
Proof. now intros w Hw. Qed.

Lemma keeps_mkdirSync f p : keeps (unchanged_outside_log f) (mkdirSync p).
Proof.
  intros w Hw. unfold mkdirSync. cbv zeta.
  destruct (fs_fault (fs w) (Mkdir p)); [now apply unchanged_log|].
  destruct (fs_exists (fs w) p); [now apply unchanged_log|].
  destruct Hw as (Hfiles & Hdirs & Hsub & Hsome).
  repeat split; cbn [snd fs calls log_call fs_mkdir dirs files]; auto.
  - intros q Hq. apply Hfiles. intros Hin. apply Hq.
    rewrite written_files_snoc, map_app. apply in_or_app. now left.
  - intros q Hq. rewrite mkdir_calls_snoc.
    apply elem_of_union in Hq as [Hq|Hq].
    + apply elem_of_singleton in Hq as ->. right. apply in_or_app. right. now left.
    + destruct (Hdirs q Hq) as [Hd|Hin]; [now left|].
      right. apply in_or_app. now left.
  - set_solver.
Qed.

Lemma keeps_writeFileSync f p data :
  keeps (unchanged_outside_log f) (writeFileSync p data).
Proof.
  intros w Hw. unfold writeFileSync. cbv zeta.
  destruct (fs_fault (fs w) (WriteFile p data)); [now apply unchanged_log|].
  destruct (bool_decide (p ∈ dirs (fs w))); [now apply unchanged_log|].
  destruct Hw as (Hfiles & Hdirs & Hsub & Hsome).
  repeat split; cbn [snd fs calls log_call fs_write dirs files]; auto.
  - intros q Hq. rewrite written_files_snoc, map_app in Hq.
    assert (p <> q) as Hne
      by (intros ->; apply Hq, in_or_app; right; now left).
    rewrite lookup_insert_ne by done. apply Hfiles.
    intros Hin. apply Hq, in_or_app. now left.
  - intros q Hq. destruct (Hdirs q Hq) as [Hd|Hin]; [now left|].
    right. rewrite mkdir_calls_snoc. apply in_or_app. now left.
  - intros q Hq. destruct (decide (p = q)) as [->|Hne].
    + rewrite lookup_insert_eq. eauto.
    + rewrite lookup_insert_ne by done. now apply Hsome.
Qed.

Lemma keeps_createLWC f inv : keeps (unchanged_outside_log f) (createLWC inv).
Proof.
  unfold createLWC. apply keeps_try_catch; [|intros e; apply keeps_call].
  unfold createLWC_body.
  destruct (resolve_targetDir inv) as [targetDir|]; [|apply keeps_call].
  apply keeps_bind.
  { unfold showInputBox. apply keeps_bind; [apply keeps_call|].
    intros _. apply keeps_lift. }
  intros [rawName|]; [|apply keeps_ret].
  destruct (negb (truthy rawName)); [apply keeps_ret|].
  apply keeps_bind; [apply keeps_lift|]. intros n. cbv zeta.
  apply keeps_bind.
  { unfold showQuickPick. apply keeps_bind; [apply keeps_call|].
    intros _. apply keeps_lift. }
  intros [[|file fileOptions]|]; [apply keeps_ret | | apply keeps_ret].
  unfold create_files. cbv zeta.
  apply keeps_bind; [apply keeps_existsSync|]. intros dir_exists.
  apply keeps_bind.
  { destruct dir_exists; [apply keeps_ret | apply keeps_mkdirSync]. }
  intros _. apply keeps_bind; [|intros _; apply keeps_call].
  apply keeps_forEach. intros x. rewrite write_file_template.
  destruct (template_for _ x); [apply keeps_writeFileSync | apply keeps_ret].
Qed.

End RunFacts.

(** Every step of the handler only adds to the log. *)
Lemma keeps_log_create_files `{JsEngine} `{NodeHost} (cs0 : list HostCall)
    targetDir camelCaseName pascalCaseName fileOptions :
  keeps (fun w => cs0 `prefix_of` calls w)
    (create_files targetDir camelCaseName pascalCaseName fileOptions).
Proof.
  assert (forall c, keeps (fun w => cs0 `prefix_of` calls w) (call c)) as Hcall
    by (intros c w Hw; now apply prefix_app_r).
  unfold create_files. cbv zeta.
  apply keeps_bind; [apply keeps_existsSync|]. intros dir_exists.
  apply keeps_bind.
  { destruct dir_exists; [apply keeps_ret|].
    intros w Hw. unfold mkdirSync. cbv zeta.
    destruct (fs_fault (fs w) (Mkdir _)); [now apply prefix_app_r|].
    destruct (fs_exists (fs w) _); now apply prefix_app_r. }
  intros _. apply keeps_bind; [|intros _; apply Hcall].
  apply keeps_forEach. intros x. rewrite write_file_template.
  destruct (template_for _ x); [|apply keeps_ret].
  intros w Hw. unfold writeFileSync. cbv zeta.
  destruct (fs_fault (fs w) (WriteFile _ _)); [now apply prefix_app_r|].
  destruct (bool_decide (_ ∈ dirs (fs w))); now apply prefix_app_r.
Qed.

(** Once a target directory is resolved, no step of the handler logs the
    message of the branch without one. *)
Lemma keeps_no_target_message `{JsEngine} `{NodeHost} inv targetDir :
  resolve_targetDir inv = Some targetDir ->
  keeps (fun w => ~ In (ShowErrorMessage (lit "No target directory found."))
                     (calls w))
    (createLWC inv).
Proof.
  intros Ht.
  set (P := fun w : World =>
              ~ In (ShowErrorMessage (lit "No target directory found.")) (calls w)).
  assert (forall c w,
             c <> ShowErrorMessage (lit "No target directory found.") ->
             P w -> P (log_call c w)) as Hlog.
  { intros c w Hc Hw Hin. cbn [calls log_call] in Hin.
    apply in_app_or in Hin as [Hin|[Hin|[]]]; [now apply Hw | now apply Hc]. }
  assert (forall c,
             c <> ShowErrorMessage (lit "No target directory found.") ->
             keeps P (call c)) as Hcall
    by (intros c Hc w Hw; now apply Hlog).
  unfold createLWC. apply keeps_try_catch.
  - unfold createLWC_body. rewrite Ht.
    apply keeps_bind.
    { unfold showInputBox. apply keeps_bind; [now apply Hcall|].
      intros _. apply keeps_lift. }
    intros [rawName|]; [|apply keeps_ret].
    destruct (negb (truthy rawName)); [apply keeps_ret|].
    apply keeps_bind; [apply keeps_lift|]. intros n. cbv zeta.
    apply keeps_bind.
    { unfold showQuickPick. apply keeps_bind; [now apply Hcall|].
      intros _. apply keeps_lift. }
    intros [[|file fileOptions]|]; [apply keeps_ret | | apply keeps_ret].
    unfold create_files. cbv zeta.
    apply keeps_bind; [apply keeps_existsSync|]. intros dir_exists.
    apply keeps_bind.
    { destruct dir_exists; [apply keeps_ret|].
      intros w Hw. unfold mkdirSync. cbv zeta.
      destruct (fs_fault (fs w) (Mkdir _)); [now apply Hlog|].
      destruct (fs_exists (fs w) _); [now apply Hlog|].
      now apply (Hlog (FsMkdir _) w). }
    intros _. apply keeps_bind; [|intros _; now apply Hcall].
    apply keeps_forEach. intros x. rewrite write_file_template.
    destruct (template_for _ x); [|apply keeps_ret].
    intros w Hw. unfold writeFileSync. cbv zeta.
    destruct (fs_fault (fs w) (WriteFile _ _)); [now apply Hlog|].
    destruct (bool_decide (_ ∈ dirs (fs w))); [now apply Hlog|].
    now apply (Hlog (FsWriteFile _ _) w).
  - intros e. unfold createLWC_catch. apply Hcall.
    intros Heq. discriminate Heq.
Qed.

(** X6. The command reports that no target directory was found exactly when
    it is invoked without a usable URI, with no active editor and with no
    usable workspace folder; it then shows no prompt and touches nothing.
    In every other case the first thing it does is show the input box, and
    that message is never shown. *)
Theorem no_target_directory_reported `{JsEngine} `{NodeHost}
    (inv : Invocation) (f : FileSystem) :
  (resolve_targetDir inv = None <->
   truthy_opt (uri inv) = false /\ activeTextEditor inv = None /\
   truthy_opt (workspaceFolder0 inv) = false)
  /\ (resolve_targetDir inv = None ->
      createLWC inv (start f)
      = (Normal tt,
         {| fs := f;
            calls := [ShowErrorMessage (lit "No target directory found.")] |}))
  /\ (forall targetDir,
         resolve_targetDir inv = Some targetDir ->
         exists w' rest,
           createLWC inv (start f) = (Normal tt, w') /\
           calls w' = ShowInputBox :: rest /\
           ~ In (ShowErrorMessage (lit "No target directory found.")) (calls w'))
  /\ (In (ShowErrorMessage (lit "No target directory found."))
        (calls (createLWC inv (start f)).2)
      <-> resolve_targetDir inv = None).
Proof.
  assert (resolve_targetDir inv = None ->
          createLWC inv (start f)
          = (Normal tt,
             {| fs := f;
                calls := [ShowErrorMessage (lit "No target directory found.")] |}))
    as Hnone.
  { intros Ht. rewrite createLWC_unfold. unfold createLWC_body. now rewrite Ht. }
  assert (forall targetDir,
             resolve_targetDir inv = Some targetDir ->
             exists w' rest,
               createLWC inv (start f) = (Normal tt, w') /\
               calls w' = ShowInputBox :: rest /\
               ~ In (ShowErrorMessage (lit "No target directory found.")) (calls w'))
    as Hsome.
  { intros targetDir Ht.
    pose proof (keeps_no_target_message inv targetDir Ht (start f)
                  ltac:(intros [])) as Hnever.
    revert Hnever.
    rewrite createLWC_unfold, (createLWC_body_prompted _ _ _ Ht).
    destruct (inputBox_answer inv) as [[rawName|]|e];
      [|intros Hnever; eexists _, _; split; [reflexivity | now split]..].
    destruct (negb (truthy rawName));
      [intros Hnever; eexists _, _; split; [reflexivity | now split]|].
    destruct (normalizeComponentName rawName) as [n|e];
      [|intros Hnever; eexists _, _; split; [reflexivity | now split]].
    cbv zeta.
    destruct (quickPick_answer inv) as [[[|file fileOptions]|]|e];
      [intros Hnever; eexists _, _; split; [reflexivity | now split]|
      |intros Hnever; eexists _, _; split; [reflexivity | now split]..].
    pose proof (keeps_log_create_files [ShowInputBox] targetDir (camelCase n)
                  (pascalCase n) (file :: fileOptions)
                  (log_call (ShowQuickPick fileOption_items)
                     (log_call ShowInputBox (start f)))
                  ltac:(now exists [ShowQuickPick fileOption_items]))
      as [rest Hrest].
    destruct (create_files _ _ _ _ _) as [[[]|e] w3]; cbn [snd] in Hrest |- *;
      intros Hnever; (eexists _, _; split; [reflexivity|]); (split; [|exact Hnever]);
      cbn [calls log_call].
    + exact Hrest.
    + rewrite Hrest. reflexivity. }
  split; [|split; [exact Hnone|split; [exact Hsome|]]].
  - unfold resolve_targetDir.
    destruct (truthy_opt (uri inv)) eqn:Hu.
    { destruct (uri inv); [|discriminate Hu].
      split; [discriminate | now intros [? _]]. }
    destruct (activeTextEditor inv) as [doc|];
      [split; [discriminate | now intros (_ & ? & _)]|].
    destruct (truthy_opt (workspaceFolder0 inv)) eqn:Hw.
    { destruct (workspaceFolder0 inv); [|discriminate Hw].
      split; [discriminate | now intros (_ & _ & ?)]. }
    now repeat split.
  - destruct (resolve_targetDir inv) as [targetDir|] eqn:Ht.
    + destruct (Hsome targetDir eq_refl) as (w' & rest & Hrun & _ & Hnever).
      rewrite Hrun. cbn [snd]. split; [now intros Hin | discriminate].
    + rewrite (Hnone eq_refl). cbn [snd calls]. split; [reflexivity | now left].
Qed.

Lemma no_target_directory_reported_witness :
  @createLWC ascii_engine posix_host bare_invocation (start workspace_fs)
  = (Normal tt,
     {| fs := workspace_fs;
        calls := [ShowErrorMessage (lit "No target directory found.")] |})
  /\ exists w' rest,
       @createLWC ascii_engine no_mkdir_host
         (invocation (Some (lit "my-component")) (Some [item "HTML" true]))
         (start workspace_fs) = (Normal tt, w') /\
       calls w' = ShowInputBox :: rest /\
       ~ In (ShowErrorMessage (lit "No target directory found.")) (calls w').
Proof.
  split.
  - apply (@no_target_directory_reported ascii_engine posix_host
             bare_invocation workspace_fs).
    reflexivity.
  - apply (proj1 (proj2 (proj2 (@no_target_directory_reported ascii_engine
                                  no_mkdir_host
                                  (invocation (Some (lit "my-component"))
                                     (Some [item "HTML" true]))
                                  workspace_fs))) (lit "/ws/lwc")).
    reflexivity.
Defined.

(** X7. An empty name is treated as a dismissed prompt, so the normaliser is
    never run on the empty string and its [TypeError] never reaches the
    user: when the body throws with the input box as its only call, it is
    the input box that rejected. *)
Theorem empty_name_is_cancellation `{JsEngine} `{NodeHost}
    (inv : Invocation) (f : FileSystem) (targetDir : jsstring) :
  resolve_targetDir inv = Some targetDir ->
  (inputBox_answer inv = Normal (Some []) ->
   createLWC inv (start f) = (Normal tt, {| fs := f; calls := [ShowInputBox] |}))
  /\ (forall e w1,
         createLWC_body inv (start f) = (Throw e, w1) ->
         calls w1 = [ShowInputBox] ->
         inputBox_answer inv = Throw e).
Proof.
  intros Ht. split.
  - intros Hi. rewrite createLWC_unfold, (createLWC_body_prompted _ _ _ Ht), Hi.
    reflexivity.
  - intros e w1. rewrite (createLWC_body_prompted _ _ _ Ht).
    destruct (inputBox_answer inv) as [[rawName|]|e1]; [|discriminate|congruence].
    destruct rawName as [|c rawName]; [discriminate|]. cbn [truthy negb].
    destruct (normalizeComponentName_nonempty (c :: rawName)) as (c0 & rest & _ & ->);
      [discriminate|].
    cbv zeta.
    destruct (quickPick_answer inv) as [[[|file fileOptions]|]|e2];
      [discriminate| |discriminate|intros [= <- <-]; discriminate].
    intros Hrun Hcalls. exfalso.
    pose proof (keeps_log_create_files
                  [ShowInputBox; ShowQuickPick fileOption_items] targetDir
                  (c0 :: rest) (toUpperCase [c0] ++ rest) (file :: fileOptions)
                  (log_call (ShowQuickPick fileOption_items)
                     (log_call ShowInputBox (start f)))
                  ltac:(now exists [])) as [more Hmore].
    cbn [camelCase pascalCase] in Hrun. rewrite Hrun in Hmore. cbn [snd] in Hmore.
    rewrite Hcalls in Hmore. discriminate Hmore.
Qed.

Lemma empty_name_is_cancellation_witness :
  @createLWC ascii_engine posix_host (invocation (Some []) None) (start workspace_fs)
  = (Normal tt, {| fs := workspace_fs; calls := [ShowInputBox] |}).
Proof.
  apply (@empty_name_is_cancellation ascii_engine posix_host
           (invocation (Some []) None) workspace_fs (lit "/ws/lwc") eq_refl).
  reflexivity.
Defined.

(** X8. On a file system that raises no error, where no target of the
    selection is a directory, a confirmed selection runs to the end: the two
    prompts, the creation of the component directory if it is missing, one
    write per selected item in the order of the selection, and the success
    message.  The files of the file system are the old ones with the planned
    writes applied in that order. *)
Theorem selection_written_in_order `{JsEngine} `{NodeHost}
    (inv : Invocation) (f : FileSystem) (targetDir rawName : jsstring)
    (n : NormalizedName) (fileOptions : list QuickPickItem) :
  resolve_targetDir inv = Some targetDir ->
  inputBox_answer inv = Normal (Some rawName) ->
  normalizeComponentName rawName = Normal n ->
  quickPick_answer inv = Normal (Some fileOptions) ->
  fileOptions <> [] ->
  let componentDir := path_join targetDir (camelCase n) in
  let f1 := if fs_exists f componentDir then f else fs_mkdir f componentDir in
  let writes :=
    planned_writes componentDir (camelCase n) (pascalCase n) fileOptions in
  (forall f' c, fs_fault f' c = None) ->
  (forall file, In file fileOptions ->
                target_path componentDir (camelCase n) file ∉ dirs f1) ->
  createLWC inv (start f)
  = (Normal tt,
     {| fs := {| dirs := dirs f1; files := write_all writes (files f) |};
        calls := [ShowInputBox; ShowQuickPick fileOption_items]
                   ++ (if fs_exists f componentDir then [] else [FsMkdir componentDir])
                   ++ map (fun pd => FsWriteFile pd.1 pd.2) writes
                   ++ [ShowInformationMessage
                         (success_message (camelCase n) componentDir)] |}).
Proof.
  intros Ht Hi Hn Hq Hne componentDir f1 writes Hnf Hnd.
  assert (createLWC_body inv (start f)
          = create_files targetDir (camelCase n) (pascalCase n) fileOptions
              (log_call (ShowQuickPick fileOption_items)
                 (log_call ShowInputBox (start f)))) as Hbody
    by now apply (createLWC_body_confirmed _ _ _ rawName).
  rewrite createLWC_unfold, Hbody, create_files_unfold.
  cbv zeta. fold componentDir. cbn [fs log_call start calls].
  subst f1. destruct (fs_exists f componentDir) eqn:Hex.
  - destruct f as [ds fl]. cbn [dirs files] in *.
    unfold log_call, start. cbn [fs calls].
    rewrite (forEach_write_file_ok _ _ _ _ _ _ _ Hnf Hnd).
    cbn [fs calls]. fold writes. now rewrite <- !app_assoc.
  - unfold mkdirSync. cbv zeta. cbn [fs log_call start calls]. rewrite Hnf, Hex.
    destruct f as [ds fl]. unfold fs_mkdir in *. cbn [dirs files] in *.
    rewrite (forEach_write_file_ok _ _ _ _ _ _ _ Hnf Hnd).
    unfold log_call. cbn [fs calls]. fold writes. now rewrite <- !app_assoc.
Qed.

Lemma selection_written_in_order_witness :
  @createLWC ascii_engine posix_host
    (invocation (Some (lit "my-component"))
       (Some (List.filter picked fileOption_items)))
    (start workspace_fs)
  = (Normal tt,
     {| fs := {| dirs := dirs (fs_mkdir workspace_fs (lit "/ws/lwc/myComponent"));
                 files :=
                   <[ lit "/ws/lwc/myComponent/myComponent.html"
                      := lit "<template>" ++ [newline; newline] ++ lit "</template>" ]>
                     (<[ lit "/ws/lwc/myComponent/myComponent.js"
                         := lit "import { LightningElement } from 'lwc';"
                              ++ [newline; newline]
                              ++ lit "export default class MyComponent extends LightningElement {}" ]>
                        ∅) |};
        calls := [ShowInputBox; ShowQuickPick fileOption_items;
                  FsMkdir (lit "/ws/lwc/myComponent");
                  FsWriteFile (lit "/ws/lwc/myComponent/myComponent.js")
                    (lit "import { LightningElement } from 'lwc';"
                       ++ [newline; newline]
                       ++ lit "export default class MyComponent extends LightningElement {}");
                  FsWriteFile (lit "/ws/lwc/myComponent/myComponent.html")
                    (lit "<template>" ++ [newline; newline] ++ lit "</template>");
                  ShowInformationMessage
                    (lit "LWC component 'myComponent' created in '/ws/lwc/myComponent'.")] |}).
Proof.
  apply (@selection_written_in_order ascii_engine posix_host
           (invocation (Some (lit "my-component"))
              (Some (List.filter picked fileOption_items)))
           workspace_fs (lit "/ws/lwc") (lit "my-component")
           {| camelCase := lit "myComponent"; pascalCase := lit "MyComponent" |}
           (List.filter picked fileOption_items)
           eq_refl eq_refl eq_refl eq_refl ltac:(discriminate)).
  - reflexivity.
  - intros file [<-|[<-|[]]];
      apply (bool_decide_eq_false_1 _); vm_compute; reflexivity.
Defined.

(** X9. Whatever the file system does, the writes that a confirmed selection
    attempts follow the plan: either the run reports success and every
    planned write was made, in order, or it reports one error and the writes
    attempted are an initial part of the plan. *)
Theorem writes_follow_selection `{JsEngine} `{NodeHost}
    (inv : Invocation) (f : FileSystem) (targetDir rawName : jsstring)
    (n : NormalizedName) (fileOptions : list QuickPickItem) :
  resolve_targetDir inv = Some targetDir ->
  inputBox_answer inv = Normal (Some rawName) ->
  normalizeComponentName rawName = Normal n ->
  quickPick_answer inv = Normal (Some fileOptions) ->
  fileOptions <> [] ->
  let componentDir := path_join targetDir (camelCase n) in
  let writes :=
    planned_writes componentDir (camelCase n) (pascalCase n) fileOptions in
  exists w',
    createLWC inv (start f) = (Normal tt, w') /\
    ((notifications (calls w')
      = [ShowInformationMessage (success_message (camelCase n) componentDir)]
      /\ written_files (calls w') = writes)
     \/ (exists e,
            notifications (calls w')
            = [ShowErrorMessage (lit "Error creating LWC: " ++ error_text e)]
            /\ written_files (calls w') `prefix_of` writes)).
Proof.
  intros Ht Hi Hn Hq Hne componentDir writes.
  assert (createLWC_body inv (start f)
          = create_files targetDir (camelCase n) (pascalCase n) fileOptions
              (log_call (ShowQuickPick fileOption_items)
                 (log_call ShowInputBox (start f)))) as Hbody
    by now apply (createLWC_body_confirmed _ _ _ rawName).
  rewrite createLWC_unfold, Hbody, create_files_unfold.
  cbv zeta. fold componentDir.
  set (w2 := log_call (ShowQuickPick fileOption_items)
               (log_call ShowInputBox (start f))).
  assert (forall w1,
             written_files (calls w1) = [] -> notifications (calls w1) = [] ->
             exists w',
               match
                 match forEach fileOptions
                         (write_file componentDir (camelCase n) (pascalCase n)) w1
                 with
                 | (Normal _, w3) =>
                     (Normal tt,
                      log_call (ShowInformationMessage
                                  (success_message (camelCase n) componentDir)) w3)
                 | (Throw e, w3) => (Throw e, w3)
                 end
               with
               | (Normal a, w') => (Normal a, w')
               | (Throw e, w') =>
                   (Normal tt,
                    log_call (ShowErrorMessage
                                (lit "Error creating LWC: " ++ error_text e)) w')
               end = (Normal tt, w') /\
               ((notifications (calls w')
                 = [ShowInformationMessage (success_message (camelCase n) componentDir)]
                 /\ written_files (calls w') = writes)
                \/ (exists e,
                       notifications (calls w')
                       = [ShowErrorMessage (lit "Error creating LWC: " ++ error_text e)]
                       /\ written_files (calls w') `prefix_of` writes))) as Hwrites.
  { intros w1 Hw1 Hn1.
    destruct (forEach_write_file_log componentDir (camelCase n) (pascalCase n)
                fileOptions w1) as (done & Hcalls & Hprefix & Hall).
    fold writes in Hprefix, Hall.
    destruct (forEach fileOptions _ w1) as [[[]|e] w3]; cbn [fst snd] in *;
      (eexists; split; [reflexivity|]); cbn [calls log_call];
      rewrite Hcalls, notifications_snoc, notifications_writes, Hn1,
        written_files_snoc, written_files_app, written_files_writes, Hw1, app_nil_r.
    - left. split; [reflexivity|]. now apply (Hall tt).
    - right. exists e. split; [reflexivity | exact Hprefix]. }
  destruct (fs_exists (fs w2) componentDir); [now apply Hwrites|].
  unfold mkdirSync. cbv zeta.
  destruct (fs_fault (fs w2) (Mkdir componentDir)) as [e|].
  - eexists. split; [reflexivity|]. right. exists e.
    split; [reflexivity | now exists writes].
  - destruct (fs_exists (fs w2) componentDir).
    + eexists. split; [reflexivity|]. right. exists (eexist_error componentDir).
      split; [reflexivity | now exists writes].
    + now apply Hwrites.
Qed.

Lemma writes_follow_selection_witness :
  exists w',
    @createLWC ascii_engine readonly_host
      (invocation (Some (lit "my-component")) (Some (List.filter picked fileOption_items)))
      (start workspace_fs) = (Normal tt, w') /\
    ((notifications (calls w')
      = [ShowInformationMessage
           (success_message (lit "myComponent") (lit "/ws/lwc/myComponent"))]
      /\ written_files (calls w')
         = @planned_writes ascii_engine readonly_host (lit "/ws/lwc/myComponent")
             (lit "myComponent") (lit "MyComponent")
             (List.filter picked fileOption_items))
     \/ (exists e,
            notifications (calls w')
            = [ShowErrorMessage (lit "Error creating LWC: " ++ error_text e)]
            /\ written_files (calls w')
               `prefix_of`
               @planned_writes ascii_engine readonly_host (lit "/ws/lwc/myComponent")
                 (lit "myComponent") (lit "MyComponent")
                 (List.filter picked fileOption_items))).
Proof.
  apply (@writes_follow_selection ascii_engine readonly_host
           (invocation (Some (lit "my-component"))
              (Some (List.filter picked fileOption_items)))
           workspace_fs (lit "/ws/lwc") (lit "my-component")
           {| camelCase := lit "myComponent"; pascalCase := lit "MyComponent" |}
           (List.filter picked fileOption_items)
           eq_refl eq_refl eq_refl eq_refl ltac:(discriminate)).
Defined.

(** X10. The handler calls [mkdirSync] at most once, only for the component
    directory, and only when nothing exists at that path when the command
    starts: the error that [mkdirSync] raises on an existing path cannot
    come from the handler's own call. *)
Theorem mkdirSync_only_when_missing `{JsEngine} `{NodeHost}
    (inv : Invocation) (f : FileSystem) :
  mkdir_calls (calls (createLWC inv (start f)).2) = []
  \/ exists targetDir rawName n,
       resolve_targetDir inv = Some targetDir /\
       inputBox_answer inv = Normal (Some rawName) /\
       normalizeComponentName rawName = Normal n /\
       mkdir_calls (calls (createLWC inv (start f)).2)
       = [path_join targetDir (camelCase n)] /\
       fs_exists f (path_join targetDir (camelCase n)) = false.
Proof.
  rewrite createLWC_unfold.
  destruct (resolve_targetDir inv) as [targetDir|] eqn:Ht;
    [|left; unfold createLWC_body; now rewrite Ht].
  rewrite (createLWC_body_prompted _ _ _ Ht).
  destruct (inputBox_answer inv) as [[rawName|]|e] eqn:Hi; [|now left..].
  destruct (negb (truthy rawName)); [now left|].
  destruct (normalizeComponentName rawName) as [n|e] eqn:Hn; [|now left].
  cbv zeta.
  destruct (quickPick_answer inv) as [[[|file fileOptions]|]|e]; [now left| |now left..].
  rewrite create_files_unfold. cbv zeta.
  set (dir := path_join targetDir (camelCase n)).
  cbn [fs log_call start calls].
  assert (forall w1,
             mkdir_calls
               (calls
                  (match
                      match forEach (file :: fileOptions)
                              (write_file dir (camelCase n) (pascalCase n)) w1
                      with
                      | (Normal _, w3) =>
                          (Normal tt,
                           log_call (ShowInformationMessage
                                       (success_message (camelCase n) dir)) w3)
                      | (Throw e, w3) => (Throw e, w3)
                      end
                    with
                    | (Normal a, w') => (Normal a, w')
                    | (Throw e, w') =>
                        (Normal tt,
                         log_call (ShowErrorMessage
                                     (lit "Error creating LWC: " ++ error_text e)) w')
                    end).2)
             = mkdir_calls (calls w1)) as Hwrites.
  { intros w1.
    pose proof (forEach_write_file_mkdir_calls dir (camelCase n) (pascalCase n)
                  (file :: fileOptions) w1) as Hmk.
    destruct (forEach (file :: fileOptions) _ w1) as [[[]|e] w3]; cbn [snd] in *;
      cbn [calls log_call]; rewrite mkdir_calls_snoc, Hmk; apply app_nil_r. }
  destruct (fs_exists f dir) eqn:Hex.
  - left. now rewrite Hwrites.
  - right. exists targetDir, rawName, n.
    do 3 (split; [first [reflexivity | assumption]|]).
    split; [|exact Hex].
    unfold mkdirSync. cbv zeta. cbn [fs log_call start calls].
    destruct (fs_fault f (Mkdir dir)); [reflexivity|].
    rewrite Hex. now rewrite Hwrites.
Qed.

Lemma mkdirSync_only_when_missing_witness :
  mkdir_calls
    (calls (@createLWC ascii_engine posix_host
              (invocation (Some (lit "my-component")) (Some [item "HTML" true]))
              (start existing_component)).2) = []
  /\ mkdir_calls
       (calls (@createLWC ascii_engine posix_host
                 (invocation (Some (lit "my-component")) (Some [item "HTML" true]))
                 (start workspace_fs)).2) = [lit "/ws/lwc/myComponent"].
Proof.
  split.
  - destruct (@mkdirSync_only_when_missing ascii_engine posix_host
                (invocation (Some (lit "my-component")) (Some [item "HTML" true]))
                existing_component)
      as [Hnone|(targetDir & rawName & n & _ & _ & _ & _ & _)];
      [exact Hnone | reflexivity].
  - destruct (@mkdirSync_only_when_missing ascii_engine posix_host
                (invocation (Some (lit "my-component")) (Some [item "HTML" true]))
                workspace_fs)
      as [Hnone|(targetDir & rawName & n & _ & _ & _ & _ & _)];
      [discriminate Hnone | reflexivity].
Defined.

(** X11. Whatever the answers and whatever the file system does, a run
    changes the file system only where its log says: a regular file only at
    the path of a [writeFileSync] call, a new directory only at the path of
    a [mkdirSync] call; no directory and no file that was there is removed. *)
Theorem run_changes_logged_paths_only `{JsEngine} `{NodeHost}
    (inv : Invocation) (f : FileSystem) :
  let w' := (createLWC inv (start f)).2 in
  (forall p, ~ In p (map fst (written_files (calls w'))) ->
             files (fs w') !! p = files f !! p)
  /\ (forall p, p ∈ dirs (fs w') -> p ∈ dirs f \/ In p (mkdir_calls (calls w')))
  /\ dirs f ⊆ dirs (fs w')
  /\ (forall p, is_Some (files f !! p) -> is_Some (files (fs w') !! p)).
Proof. exact (keeps_createLWC f inv (start f) (unchanged_start f)). Qed.

Lemma run_changes_logged_paths_only_witness :
  files (fs (@createLWC ascii_engine posix_host
               (invocation (Some (lit "my-component")) (Some [item "JS" true]))
               (start existing_component)).2)
    !! lit "/ws/lwc/myComponent/myComponent.html"
  = Some (lit "<template>old</template>").
Proof.
  rewrite (proj1 (@run_changes_logged_paths_only ascii_engine posix_host
                    (invocation (Some (lit "my-component")) (Some [item "JS" true]))
                    existing_component)).
  - reflexivity.
  - intros [Hp|[]]. discriminate Hp.
Defined.

(** X12. When the component directory is missing and its creation fails, the
    handler stops there: no file is written, the file system is as before,
    and the one notification is the error with the text of the failure. *)
Theorem mkdir_failure_stops_the_run `{JsEngine} `{NodeHost}
    (inv : Invocation) (f : FileSystem) (targetDir rawName : jsstring)
    (n : NormalizedName) (fileOptions : list QuickPickItem) (e : JsValue) :
  resolve_targetDir inv = Some targetDir ->
  inputBox_answer inv = Normal (Some rawName) ->
  normalizeComponentName rawName = Normal n ->
  quickPick_answer inv = Normal (Some fileOptions) ->
  fileOptions <> [] ->
  let componentDir := path_join targetDir (camelCase n) in
  fs_exists f componentDir = false ->
  fs_fault f (Mkdir componentDir) = Some e ->
  createLWC inv (start f)
  = (Normal tt,
     {| fs := f;
        calls := [ShowInputBox; ShowQuickPick fileOption_items;
                  FsMkdir componentDir;
                  ShowErrorMessage (lit "Error creating LWC: " ++ error_text e)] |}).
Proof.
  intros Ht Hi Hn Hq Hne componentDir Hex Hfault.
  assert (createLWC_body inv (start f)
          = create_files targetDir (camelCase n) (pascalCase n) fileOptions
              (log_call (ShowQuickPick fileOption_items)
                 (log_call ShowInputBox (start f)))) as Hbody
    by now apply (createLWC_body_confirmed _ _ _ rawName).
  rewrite createLWC_unfold, Hbody, create_files_unfold.
  cbv zeta. fold componentDir. cbn [fs log_call start calls]. rewrite Hex.
  unfold mkdirSync. cbv zeta. cbn [fs log_call start calls]. rewrite Hfault.
  reflexivity.
Qed.

Lemma mkdir_failure_stops_the_run_witness :
  @createLWC ascii_engine no_mkdir_host
    (invocation (Some (lit "my-component")) (Some (List.filter picked fileOption_items)))
    (start workspace_fs)
  = (Normal tt,
     {| fs := workspace_fs;
        calls := [ShowInputBox; ShowQuickPick fileOption_items;
                  FsMkdir (lit "/ws/lwc/myComponent");
                  ShowErrorMessage
                    (lit "Error creating LWC: EACCES: permission denied, mkdir '/ws/lwc/myComponent'")] |}).
Proof.
  exact (@mkdir_failure_stops_the_run ascii_engine no_mkdir_host
           (invocation (Some (lit "my-component"))
              (Some (List.filter picked fileOption_items)))
           workspace_fs (lit "/ws/lwc") (lit "my-component")
           {| camelCase := lit "myComponent"; pascalCase := lit "MyComponent" |}
           (List.filter picked fileOption_items)
           (ErrorObject (lit "EACCES: permission denied, mkdir '/ws/lwc/myComponent'"))
           eq_refl eq_refl eq_refl eq_refl ltac:(discriminate) eq_refl eq_refl).
Defined.
